(** * Qwick: a static, memory-mapped key/value file (package qwick, qwick.go)

    Shallow embedding of the reader ([Open], [GetRaw], [Find], [Prefix],
    [findIndex], [readIndex]) and of the builder ([BuildWithOptions]).

    - Byte slices are [list byte]; Go's [uint64] arithmetic is [Z] reduced
      modulo 2^64 ([u64]); a Go slice expression [m[lo:hi]] is [slice], which
      panics (outcome [Panicked]) exactly when Go's bounds check fails.
    - The reader runs in a small writer/panic monad ([outcome]) whose log
      records every index entry read ([ERead i]) and every callback
      invocation ([EVisit k v cont]).
    - The compression libraries (klauspost s2 / zstd) are external: they are
      section variables, and the builder records which encoder call it makes
      ([codec_call]) so that the level of a zstd encoder is visible. *)

From Stdlib Require Import String ZArith List Lia Bool.
From Stdlib Require Import Strings.Byte Sorting.Sorted.
Import ListNotations.
Open Scope Z_scope.

(** ** Bytes and little-endian words *)

Definition bytes := list byte.

Definition len (m : bytes) : Z := Z.of_nat (length m).

Definition byte_of_Z (z : Z) : byte :=
  match Byte.of_N (Z.to_N (z mod 256)) with Some b => b | None => x00 end.

Definition bval (b : byte) : Z := Z.of_N (Byte.to_N b).

(** [binary.LittleEndian.Uint32 / Uint64] applied to a slice of exactly the
    right length. *)
Fixpoint le_get (bs : bytes) : Z :=
  match bs with
  | [] => 0
  | b :: r => bval b + 256 * le_get r
  end.

(** [binary.LittleEndian.PutUint32 / PutUint64]: [n] bytes of [z]. *)
Fixpoint le_put (n : nat) (z : Z) : bytes :=
  match n with
  | O => []
  | S n' => byte_of_Z z :: le_put n' (z / 256)
  end.

Definition two64 : Z := 18446744073709551616. (* 2^64 *)
Definition u64 (z : Z) : Z := z mod two64.
Definition two32 : Z := 4294967296. (* 2^32 *)
Definition u32 (z : Z) : Z := z mod two32.

(** [m[lo:hi]] as a value, once the bounds are known to hold. *)
Definition sub (m : bytes) (lo hi : Z) : bytes :=
  firstn (Z.to_nat (hi - lo)) (skipn (Z.to_nat lo) m).

(** [bytes.Compare]: lexicographic order on unsigned bytes. *)
Fixpoint bytes_compare (a b : bytes) : comparison :=
  match a, b with
  | [], [] => Eq
  | [], _ :: _ => Lt
  | _ :: _, [] => Gt
  | x :: a', y :: b' =>
      match N.compare (Byte.to_N x) (Byte.to_N y) with
      | Eq => bytes_compare a' b'
      | c => c
      end
  end.

(** [bytes.Equal]. *)
Fixpoint bytes_equal (a b : bytes) : bool :=
  match a, b with
  | [], [] => true
  | x :: a', y :: b' => Byte.eqb x y && bytes_equal a' b'
  | _, _ => false
  end.

(** [bytes.HasPrefix(s, prefix)]:
    [len(s) >= len(prefix) && Equal(s[:len(prefix)], prefix)]. *)
Definition HasPrefix (s prefix : bytes) : bool :=
  Nat.leb (length prefix) (length s) && bytes_equal (firstn (length prefix) s) prefix.

(** ** The reader monad: a log of events and Go panics *)

Inductive event :=
| ERead (i : Z)                        (* readIndex(i) *)
| EVisit (k v : bytes) (cont : bool).  (* cb(k, v) returned cont *)

Inductive outcome (A : Type) :=
| Done (a : A) (log : list event)
| Panicked (log : list event).
Arguments Done {A}.
Arguments Panicked {A}.

Definition ret {A} (a : A) : outcome A := Done a [].

Definition bind {A B} (m : outcome A) (f : A -> outcome B) : outcome B :=
  match m with
  | Done a l1 =>
      match f a with
      | Done b l2 => Done b (l1 ++ l2)
      | Panicked l2 => Panicked (l1 ++ l2)
      end
  | Panicked l1 => Panicked l1
  end.

Definition tell (e : event) : outcome unit := Done tt [e].

Definition panic {A} : outcome A := Panicked [].

Notation "x <- m ;; k" := (bind m (fun x => k))
  (at level 61, m at next level, right associativity).

Definition log_of {A} (o : outcome A) : list event :=
  match o with Done _ l => l | Panicked l => l end.

(** Go's slice expression [m[lo:hi]] on the mapping ([cap(m) = len(m)]);
    [lo] and [hi] are [uint64] values. *)
Definition slice (m : bytes) (lo hi : Z) : outcome bytes :=
  if (lo <=? hi) && (hi <=? len m) then ret (sub m lo hi) else panic.

(** ** File format constants and the reader's state *)

Definition headerSize : Z := 64.
Definition FileVersion : Z := 1.
Definition indexEntrySize : Z := 8 + 4 + 8 + 4.

Definition compNone : Z := 0.
Definition compZstd : Z := 1.
Definition compS2 : Z := 2.

(** [FileMagic = "QWICK2026"] (a Go string constant). *)
Definition FileMagic : bytes := list_byte_of_string "QWICK2026".

(** [fileHeader]; the field [Compression] is named [hdrCompression] here
    (the name [Compression] is taken by [BuildOptions]). *)
Record fileHeader := mkHeader {
  Magic : bytes;
  Version : Z;
  NumEntries : Z;
  OffIndex : Z;
  OffBlobs : Z;
  ValueFmt : Z;
  hdrCompression : Z
}.

Record MMAPDB := mkDB {
  mdata : bytes;
  hdr : fileHeader;
  indexBase : Z;
  indexSize : Z;
  num : Z;
  compression : Z
}.

(** ** Index access *)

Definition readIndex (db : MMAPDB) (i : Z) : outcome (Z * Z * Z * Z) :=
  let m := mdata db in
  let off := u64 (indexBase db + u64 (i * indexEntrySize)) in
  _ <- tell (ERead i) ;;
  b0 <- slice m off (u64 (off + 8)) ;;
  b1 <- slice m (u64 (off + 8)) (u64 (off + 12)) ;;
  b2 <- slice m (u64 (off + 12)) (u64 (off + 20)) ;;
  b3 <- slice m (u64 (off + 20)) (u64 (off + 24)) ;;
  ret (le_get b0, le_get b1, le_get b2, le_get b3).

Definition getKeySlice (db : MMAPDB) (i : Z) : outcome bytes :=
  e <- readIndex db i ;;
  let '(koff, klen, _, _) := e in
  slice (mdata db) koff (u64 (koff + klen)).

Definition getValSlice (db : MMAPDB) (i : Z) : outcome bytes :=
  e <- readIndex db i ;;
  let '(_, _, voff, vlen) := e in
  slice (mdata db) voff (u64 (voff + vlen)).

(** [findIndex]: the loop [for lo < hi] of the source.  [hi - lo] strictly
    decreases at each round while [lo + hi < 2^64], so [num + 1] rounds of
    fuel cover every run on an index that fits in the mapping. *)
Fixpoint findIndex_loop (db : MMAPDB) (key : bytes) (fuel : nat) (lo hi : Z)
  : outcome (Z * bool) :=
  match fuel with
  | O => ret (lo, false)
  | S f =>
      if lo <? hi then
        let mid := Z.shiftr (u64 (lo + hi)) 1 in
        k <- getKeySlice db mid ;;
        match bytes_compare k key with
        | Eq => ret (mid, true)
        | Lt => findIndex_loop db key f (u64 (mid + 1)) hi
        | Gt => findIndex_loop db key f lo mid
        end
      else ret (lo, false)
  end.

Definition findIndex (db : MMAPDB) (key : bytes) : outcome (Z * bool) :=
  findIndex_loop db key (S (Z.to_nat (num db))) 0 (num db).

Definition GetRaw (db : MMAPDB) (key : bytes) : outcome (option bytes) :=
  r <- findIndex db key ;;
  let '(idx, ok) := r in
  if negb ok then ret None
  else
    e <- readIndex db idx ;;
    let '(_, _, voff, vlen) := e in
    v <- slice (mdata db) voff (u64 (voff + vlen)) ;;
    ret (Some v).

(** ** Find: decoding through the external codecs *)

(** A Go [error] value returned by a decoder. *)
Inductive go_error := GoError (msg : string).

Section Decoders.
  (** [s2.Decode(dst, src)] and [zstdDec.DecodeAll(input, dst)]: the output
      slice and the error ([None] for [nil]).  Find passes [dst[:0]], an
      empty slice whose capacity is irrelevant to the value. *)
Variable s2_Decode : bytes -> bytes -> bytes * option go_error.
Variable zstd_DecodeAll : bytes -> bytes -> bytes * option go_error.

Definition Find (db : MMAPDB) (key dst : bytes)
    : outcome (bytes * bool * option go_error) :=
    r <- GetRaw db key ;;
    match r with
    | None => ret ([], false, None)
    | Some val =>
        let dst0 := firstn 0 dst in
        if compression db =? compZstd then
          let '(out, err) := zstd_DecodeAll val dst0 in ret (out, true, err)
        else if compression db =? compS2 then
          let '(out, err) := s2_Decode dst0 val in ret (out, true, err)
        else if compression db =? 0 then
          (* auto mode: s2 first, then zstd, else the stored bytes *)
          let '(out, err) := s2_Decode dst0 val in
          match err with
          | None => ret (out, true, None)
          | Some _ =>
              let '(out', err') := zstd_DecodeAll val dst0 in
              match err' with
              | None => ret (out', true, None)
              | Some _ => ret (val, true, None)
              end
          end
        else ret (val, true, None)
    end.
End Decoders.

(** ** Prefix *)

(** The callback [cb func(key, val []byte) bool] is a closure: [cb cs k v]
    returns the Go result and the closure's next state. *)
Section PrefixScan.
Context {CS : Type}.
Variable cb : CS -> bytes -> bytes -> bool * CS.

Fixpoint prefix_loop (db : MMAPDB) (prefix : bytes) (fuel : nat) (i : Z)
    (cs : CS) : outcome CS :=
    match fuel with
    | O => ret cs
    | S f =>
        if i <? num db then
          k <- getKeySlice db i ;;
          if negb (HasPrefix k prefix) then ret cs
          else
            v <- getValSlice db i ;;
            let '(cont, cs') := cb cs k v in
            _ <- tell (EVisit k v cont) ;;
            if negb cont then ret cs'
            else prefix_loop db prefix f (u64 (i + 1)) cs'
        else ret cs
    end.

  (** [for i := idx; i < db.num; i++]: [num - idx] rounds. *)
Definition Prefix (db : MMAPDB) (prefix : bytes) (cs : CS) : outcome CS :=
    r <- findIndex db prefix ;;
    let '(idx, _) := r in
    prefix_loop db prefix (Z.to_nat (num db - idx)) idx cs.
End PrefixScan.

(** ** Open *)

Inductive open_error :=
| ErrIO          (* os.Open failed *)
| ErrMmap        (* mmap.Map failed: a file of length 0 cannot be mapped *)
| ErrTooShort    (* "слишком короткий файл" *)
| ErrBadMagic.   (* "неверная сигнатура файла (magic)" *)

Inductive open_result :=
| OpenOk (db : MMAPDB)
| OpenErr (e : open_error).

(** Lines 83-104: the header fields read after the magic check, and the
    reader built from them. *)
Definition parse_db (m : bytes) : MMAPDB :=
  let h := mkHeader (firstn 8 m)
                    (le_get (sub m 8 12)) (le_get (sub m 16 24))
                    (le_get (sub m 24 32)) (le_get (sub m 32 40))
                    (le_get (sub m 40 44)) (le_get (sub m 44 48)) in
  mkDB m h (OffIndex h) indexEntrySize (NumEntries h) (hdrCompression h).

(** [Open] once the file has been opened and mapped read-only as [m]:
    [string(hdr.Magic[:]) != FileMagic] compares the 8 bytes of the field
    with the whole constant. *)
Definition Open_mapped (m : bytes) : open_result :=
  if len m <? headerSize then OpenErr ErrTooShort
  else if bytes_equal (firstn 8 m) FileMagic then OpenOk (parse_db m)
  else OpenErr ErrBadMagic.

(** [Open(path)] over a file system mapping paths to contents.  Lines
    67-76: [os.Open] fails on a missing file; [mmap.Map] maps the whole
    file, and a mapping of length 0 is refused (EINVAL), so an empty file
    fails there, before the length check. *)
Definition Open (fs : string -> option bytes) (path : string) : open_result :=
  match fs path with
  | None => OpenErr ErrIO
  | Some [] => OpenErr ErrMmap
  | Some m => Open_mapped m
  end.

(** ** The builder *)

(** A value stored in the ART tree, [v.(type)] in the builder's switch:
    [[]byte], [string], or anything else, printed by [fmt.Sprint] (the
    constructor carries the printed text). *)
Inductive value :=
| VBytes (b : bytes)
| VString (s : string)
| VOther (printed : bytes).

Definition coerce (v : value) : bytes :=
  match v with
  | VBytes b => b
  | VString s => list_byte_of_string s
  | VOther p => p
  end.

Record BuildOptions := mkOpts {
  Compression : Z;   (* uint32: 0=auto, 1=zstd, 2=s2 *)
  ZstdLevel : Z;     (* int *)
  SizeCutover : Z    (* int *)
}.

(** The zstd encoder levels, and the encoder call made for one value: which
    library function encodes [vb], with which encoder. *)
Inductive zlevel := SpeedFastest | SpeedDefault | SpeedBetterCompression.

Inductive codec_call :=
| CallZstd (lvl : zlevel) (vb : bytes)   (* zenc.EncodeAll(vb, nil) *)
| CallS2 (vb : bytes)                    (* s2.Encode(nil, vb) *)
| NoCall (vb : bytes).                   (* cv = vb *)

(** One [f.Write] of the ForEach loop: the key, then the encoded value. *)
Inductive write_op := WKey (k : bytes) | WVal (c : codec_call).

(** [idx{koff, klen, voff, vlen}]. *)
Record idx := mkIdx { koff : Z; klen : Z; voff : Z; vlen : Z }.

(** Lines 259-269: [zenc] before the loop, [nil] unless
    [compression == compZstd]. *)
Definition initial_zenc (opts : BuildOptions) : option zlevel :=
  if Compression opts =? compZstd then
    Some (if ZstdLevel opts =? 2 then SpeedDefault
          else if ZstdLevel opts =? 3 then SpeedBetterCompression
          else SpeedFastest)
  else None.

(** Lines 292-314: [compToUse] and the [switch] on it; a missing zstd
    encoder is created at [SpeedFastest] and kept for later values. *)
Definition choose_call (opts : BuildOptions) (zenc : option zlevel) (vb : bytes)
  : codec_call * option zlevel :=
  let compToUse :=
    if (Compression opts =? 0) && (0 <? SizeCutover opts) then
      if len vb >? SizeCutover opts then compZstd else compS2
    else Compression opts in
  if compToUse =? compZstd then
    match zenc with
    | None => (CallZstd SpeedFastest vb, Some SpeedFastest)
    | Some l => (CallZstd l vb, Some l)
    end
  else if compToUse =? compS2 then (CallS2 vb, zenc)
  else (NoCall vb, zenc).

Section Encoders.
  (** [s2.Encode(nil, vb)] and [EncodeAll(vb, nil)] of a zstd encoder at a
      level. *)
Variable s2_Encode : bytes -> bytes.
Variable zstd_EncodeAll : zlevel -> bytes -> bytes.

Definition run_call (c : codec_call) : bytes :=
    match c with
    | CallZstd l vb => zstd_EncodeAll l vb
    | CallS2 vb => s2_Encode vb
    | NoCall vb => vb
    end.

  (** The second [tree.ForEach] (lines 271-320), starting at file offset
      [pos]: the index entries, the writes made, and the bytes written. *)
Fixpoint build_loop (opts : BuildOptions) (zenc : option zlevel) (pos : Z)
    (ents : list (bytes * value)) : list idx * list write_op * bytes :=
    match ents with
    | [] => ([], [], [])
    | (k, v) :: rest =>
        let vb := coerce v in
        let koff := pos in
        let klen := u32 (len k) in
        let voff := pos + len k in
        let '(c, zenc') := choose_call opts zenc vb in
        let cv := run_call c in
        let vlen := u32 (len cv) in
        let '(ixs, ws, blob) := build_loop opts zenc' (voff + len cv) rest in
        (mkIdx koff klen voff vlen :: ixs, WKey k :: WVal c :: ws, k ++ cv ++ blob)
    end.

Definition index_bytes (ixs : list idx) : bytes :=
    flat_map (fun it => le_put 8 (koff it) ++ le_put 4 (klen it)
                        ++ le_put 8 (voff it) ++ le_put 4 (vlen it)) ixs.

  (** Lines 332-341: [copy(hdrBuf[0:8], []byte(FileMagic))] copies the first
      8 bytes of the constant. *)
Definition header_bytes (n offIndex offBlobs comp : Z) : bytes :=
    firstn 8 FileMagic ++ le_put 4 FileVersion ++ le_put 4 0
    ++ le_put 8 n ++ le_put 8 offIndex ++ le_put 8 offBlobs
    ++ le_put 4 100 ++ le_put 4 comp ++ repeat x00 16.

  (** The tree's leaves in ForEach order, [ents].  The writes and seeks of
      the source leave the file as header, index table, then blobs. *)
Definition BuildWithOptions (ents : list (bytes * value)) (opts : BuildOptions)
    : bytes :=
    let n := Z.of_nat (length ents) in
    let offIndex := headerSize in
    let offBlobs := offIndex + n * indexEntrySize in
    let '(ixs, _, blob) := build_loop opts (initial_zenc opts) offBlobs ents in
    header_bytes n offIndex offBlobs (Compression opts) ++ index_bytes ixs ++ blob.

  (** The encoder calls of a build, in order. *)
Definition build_writes (ents : list (bytes * value)) (opts : BuildOptions)
    : list write_op :=
    let n := Z.of_nat (length ents) in
    let '(_, ws, _) :=
      build_loop opts (initial_zenc opts) (headerSize + n * indexEntrySize) ents in
    ws.

  (** The file system after a build: the finished file is renamed from
      [path + ".tmp"] to [path]. *)
Definition fs_after_build (fs : string -> option bytes) (path : string)
    (ents : list (bytes * value)) (opts : BuildOptions) : string -> option bytes :=
    fun p =>
      if String.eqb p path then Some (BuildWithOptions ents opts)
      else if String.eqb p (path ++ ".tmp") then None
      else fs p.
End Encoders.

(** [Build(tree, path)]'s options. *)
Definition default_opts : BuildOptions := mkOpts 0 1 256.

(** ** Small executions *)

Definition bs (s : string) : bytes := list_byte_of_string s.

Definition id_s2 (b : bytes) : bytes := b.
Definition id_zstd (_ : zlevel) (b : bytes) : bytes := b.

Example magic_len : length FileMagic = 9%nat.
Proof. reflexivity. Qed.

Example build_header_magic :
  firstn 8 (BuildWithOptions id_s2 id_zstd [(bs "k", VBytes (bs "v"))] default_opts)
  = bs "QWICK202".
Proof. reflexivity. Qed.

(** ** Files used below *)

(** The header of the source's [TestPanicReproduction]: one index entry at
    offset 64 whose key and value offsets (10000000000) lie far beyond the
    88-byte file. *)
Definition panic_file : bytes :=
  firstn 8 FileMagic ++ le_put 4 FileVersion ++ le_put 4 0
  ++ le_put 8 1 ++ le_put 8 64 ++ le_put 8 10000000000
  ++ le_put 4 0 ++ le_put 4 0 ++ repeat x00 16
  ++ le_put 8 10000000000 ++ le_put 4 10 ++ le_put 8 10000000010 ++ le_put 4 10.

(** The header of the source's [TestCorruptedDB/InvalidCompression]:
    compression code 99 at bytes 44-47, every other field zero. *)
Definition comp99_file : bytes :=
  firstn 8 FileMagic ++ le_put 4 FileVersion ++ le_put 4 0
  ++ le_put 8 0 ++ le_put 8 0 ++ le_put 8 0
  ++ le_put 4 0 ++ le_put 4 99 ++ repeat x00 16.

(** Bytes 8-11 (the version) of [m] replaced by [vb]. *)
Definition set_version (vb : bytes) (m : bytes) : bytes :=
  firstn 8 m ++ vb ++ skipn 12 m.



(** ** General lemmas *)

Lemma le_put_length : forall n z, length (le_put n z) = n.
Proof. induction n; intros; simpl; [reflexivity | now rewrite IHn]. Qed.

Lemma bytes_equal_length : forall a b, bytes_equal a b = true -> length a = length b.
Proof.
  induction a as [|x a IH]; destruct b as [|y b]; simpl; try discriminate; auto.
  intros H. apply andb_prop in H as [_ H]. now rewrite (IH b H).
Qed.

Lemma bytes_equal_spec : forall a b, bytes_equal a b = true <-> a = b.
Proof.
  induction a as [|x a IH]; destruct b as [|y b]; simpl; split; intros H;
    try discriminate; auto.
  - apply andb_prop in H as [H1 H2]. apply byte_dec_bl in H1.
    apply IH in H2. now subst.
  - injection H as <- <-. apply andb_true_intro. split.
    + now apply byte_dec_lb.
    + now apply IH.
Qed.

(** No 8-byte field equals the 9-byte [FileMagic]: [Open] never gets past
    the magic check. *)
Lemma Open_mapped_rejects : forall m,
  Open_mapped m = OpenErr ErrTooShort \/ Open_mapped m = OpenErr ErrBadMagic.
Proof.
  intros m. unfold Open_mapped.
  destruct (len m <? headerSize); [now left|].
  destruct (bytes_equal (firstn 8 m) FileMagic) eqn:E; [|now right].
  exfalso. apply bytes_equal_length in E. rewrite magic_len, length_firstn in E.
  lia.
Qed.

Lemma header_bytes_length : forall n oi ob c, length (header_bytes n oi ob c) = 64%nat.
Proof.
  intros. unfold header_bytes. rewrite !length_app, !le_put_length.
  reflexivity.
Qed.

Lemma firstn8_header_app : forall n oi ob c rest,
  firstn 8 (header_bytes n oi ob c ++ rest) = bs "QWICK202".
Proof.
  intros. rewrite firstn_app, header_bytes_length. simpl. reflexivity.
Qed.

Lemma set_version_length : forall vb m,
  length vb = 4%nat -> (12 <= length m)%nat -> length (set_version vb m) = length m.
Proof.
  intros vb m Hv Hm. unfold set_version.
  rewrite !length_app, length_firstn, length_skipn, Hv. lia.
Qed.

Lemma set_version_firstn8 : forall vb m,
  (12 <= length m)%nat -> firstn 8 (set_version vb m) = firstn 8 m.
Proof.
  intros vb m Hm. unfold set_version.
  rewrite firstn_app, length_firstn.
  replace (Nat.min 8 (length m)) with 8%nat by lia.
  rewrite Nat.sub_diag, firstn_O, app_nil_r.
  apply firstn_all2. rewrite length_firstn. lia.
Qed.

Lemma Open_nonempty : forall fs path m, fs path = Some m -> m <> [] ->
  Open fs path = Open_mapped m.
Proof.
  intros fs path m Hm Hne. unfold Open. rewrite Hm.
  destruct m; [contradiction | reflexivity].
Qed.

Lemma BuildWithOptions_nonempty : forall s2e ze ents opts,
  BuildWithOptions s2e ze ents opts <> [].
Proof.
  intros s2e ze ents opts. unfold BuildWithOptions.
  destruct (build_loop _ _ _ _ _ ents) as [[ixs ws] blob]. intros E.
  apply (f_equal (@length byte)) in E.
  rewrite length_app, header_bytes_length in E. discriminate.
Qed.

(** ** Open *)

(** C1 (the round trip): after [BuildWithOptions(tree, path, opts)], for
    every tree and every options value, [Open(path)] fails with the
    bad-magic error: the builder writes the first 8 bytes ["QWICK202"] of
    [FileMagic], and the reader compares those 8 bytes with the 9-byte
    constant ["QWICK2026"].  No lookup on the built file is possible. *)
Theorem Open_after_Build_fails : forall s2e ze fs path ents opts,
  Open (fs_after_build s2e ze fs path ents opts) path = OpenErr ErrBadMagic.
Proof.
  intros. rewrite (Open_nonempty _ path (BuildWithOptions s2e ze ents opts)).
  2: { unfold fs_after_build. now rewrite String.eqb_refl. }
  2: { apply BuildWithOptions_nonempty. }
  unfold Open_mapped, BuildWithOptions.
  destruct (build_loop s2e ze opts (initial_zenc opts)
             (headerSize + Z.of_nat (length ents) * indexEntrySize) ents)
    as [[ixs ws] blob].
  rewrite firstn8_header_app.
  match goal with |- context [len ?f <? headerSize] => set (file := f) end.
  assert (Hl : len file >= headerSize).
  { unfold file, len. rewrite length_app, header_bytes_length. unfold headerSize. lia. }
  destruct (len file <? headerSize) eqn:E.
  - apply Z.ltb_lt in E. lia.
  - reflexivity.
Qed.



(** The file of [TestErrorsMore], whatever the encoders: [Build] of
    ["a" -> "b"] with the version overwritten by 999.  [Open] rejects it with
    the bad-magic error, the same error as the unmodified built file, and
    not with an unsupported-version error. *)
Lemma Open_TestErrorsMore_file : forall s2e ze fs path,
  fs path = Some (set_version (le_put 4 999)
                    (BuildWithOptions s2e ze [(bs "a", VBytes (bs "b"))] default_opts)) ->
  Open fs path = OpenErr ErrBadMagic.
Proof.
  intros s2e ze fs path H.
  set (F := BuildWithOptions s2e ze [(bs "a", VBytes (bs "b"))] default_opts) in *.
  assert (HF : (64 <= length F)%nat).
  { unfold F, BuildWithOptions.
    destruct (build_loop _ _ _ _ _ _) as [[ixs ws] blob].
    rewrite length_app, header_bytes_length. lia. }
  assert (Hl : length (set_version (le_put 4 999) F) = length F)
    by (apply set_version_length; [apply le_put_length | lia]).
  rewrite (Open_nonempty fs path _ H).
  2: { intro E. rewrite E in Hl. simpl in Hl. lia. }
  unfold Open_mapped. rewrite set_version_firstn8 by lia.
  destruct (len (set_version (le_put 4 999) F) <? headerSize) eqn:E1.
  { apply Z.ltb_lt in E1. unfold len in E1. rewrite Hl in E1. unfold headerSize in E1.
    lia. }
  destruct (bytes_equal (firstn 8 F) FileMagic) eqn:E2; [|reflexivity].
  exfalso. apply bytes_equal_length in E2. rewrite magic_len, length_firstn in E2. lia.
Qed.

(** C4: on the header of [TestCorruptedDB/InvalidCompression] (compression
    code 99), [Open] reports the bad-magic error, not "unsupported
    compression"; past the magic check the reader would be built with
    compression 99, since [Open] has no compression check. *)
Theorem Open_compression99_bad_magic :
  Open_mapped comp99_file = OpenErr ErrBadMagic /\
  compression (parse_db comp99_file) = 99.
Proof. split; vm_compute; reflexivity. Qed.

(** ** Bounds on read *)

(** The reader that [Open] would build from the file of
    [TestPanicReproduction] past its checks, which currently reject every
    file (key offset 10000000000 in an 88-byte mapping): [GetRaw], [Find] and
    [Prefix] panic at the unchecked slice expression [mdata[koff:koff+klen]]
    right after reading index entry 0; there is no CorruptData error. *)
Theorem reader_panics_on_out_of_range_offsets :
  GetRaw (parse_db panic_file) (bs "test") = Panicked [ERead 0] /\
  (forall s2d zd dst, Find s2d zd (parse_db panic_file) (bs "test") dst
                      = Panicked [ERead 0]) /\
  (forall CS (cb : CS -> bytes -> bytes -> bool * CS) cs,
      Prefix cb (parse_db panic_file) (bs "test") cs = Panicked [ERead 0]).
Proof.
  split; [vm_compute; reflexivity|]. split.
  - intros. unfold Find.
    replace (GetRaw (parse_db panic_file) (bs "test")) with
      (@Panicked (option bytes) [ERead 0]) by (vm_compute; reflexivity).
    reflexivity.
  - intros. unfold Prefix.
    replace (findIndex (parse_db panic_file) (bs "test")) with
      (@Panicked (Z * bool) [ERead 0]) by (vm_compute; reflexivity).
    reflexivity.
Qed.

(** ** Find *)

Lemma bind_done_ret : forall {A B} (a : A) l (f : A -> B),
  bind (Done a l) (fun x => ret (f x)) = Done (f a) l.
Proof. intros. unfold bind, ret. simpl. now rewrite app_nil_r. Qed.

(** C5: with header compression 0, for a present key ([GetRaw] yields the
    stored bytes [val]), [Find] tries [s2.Decode], then
    [zstdDec.DecodeAll], then returns [val] unchanged; [found] is true and
    the error is always [nil]. *)
Theorem Find_auto_mode : forall s2d zd db key dst val l,
  compression db = 0 ->
  GetRaw db key = Done (Some val) l ->
  Find s2d zd db key dst
  = Done (match s2d [] val with
          | (out, None) => out
          | (_, Some _) =>
              match zd val [] with
              | (out', None) => out'
              | (_, Some _) => val
              end
          end, true, None) l.
Proof.
  intros s2d zd db key dst val l Hc Hg. unfold Find. rewrite Hg.
  simpl firstn. rewrite Hc. simpl.
  destruct (s2d [] val) as [out [e|]]; [destruct (zd val []) as [out' [e'|]]|];
    simpl; now rewrite app_nil_r.
Qed.

Definition auto_db : MMAPDB :=
  parse_db (BuildWithOptions id_s2 id_zstd [(bs "k", VBytes (bs "v"))] (mkOpts 0 1 0)).

Definition failing_decoder (_ _ : bytes) : bytes * option go_error :=
  ([], Some (GoError "corrupt")).

Lemma Find_auto_mode_witness :
  compression auto_db = 0 /\
  GetRaw auto_db (bs "k") = Done (Some (bs "v")) [ERead 0; ERead 0] /\
  Find failing_decoder failing_decoder auto_db (bs "k") []
  = Done (bs "v", true, None) [ERead 0; ERead 0].
Proof.
  split; [vm_compute; reflexivity|]. split; [vm_compute; reflexivity|].
  apply (Find_auto_mode failing_decoder failing_decoder auto_db (bs "k") [] (bs "v")
           [ERead 0; ERead 0]); vm_compute; reflexivity.
Defined.

(** C10: with a header compression code outside {0, 1, 2}, for a present
    key [Find] returns the stored bytes with [found = true] and a [nil]
    error, whatever the decoders do. *)
Theorem Find_unknown_compression : forall s2d zd db key dst val l,
  compression db <> 0 -> compression db <> 1 -> compression db <> 2 ->
  GetRaw db key = Done (Some val) l ->
  Find s2d zd db key dst = Done (val, true, None) l.
Proof.
  intros s2d zd db key dst val l H0 H1 H2 Hg. unfold Find. rewrite Hg.
  unfold compZstd, compS2.
  rewrite (proj2 (Z.eqb_neq _ _) H0), (proj2 (Z.eqb_neq _ _) H1),
    (proj2 (Z.eqb_neq _ _) H2).
  simpl. now rewrite app_nil_r.
Qed.

Definition other_db : MMAPDB :=
  parse_db (BuildWithOptions id_s2 id_zstd [(bs "k", VBytes (bs "v"))] (mkOpts 99 1 0)).

Lemma Find_unknown_compression_witness :
  compression other_db = 99 /\
  GetRaw other_db (bs "k") = Done (Some (bs "v")) [ERead 0; ERead 0] /\
  Find failing_decoder failing_decoder other_db (bs "k") []
  = Done (bs "v", true, None) [ERead 0; ERead 0].
Proof.
  split; [vm_compute; reflexivity|]. split; [vm_compute; reflexivity|].
  apply (Find_unknown_compression failing_decoder failing_decoder other_db (bs "k") []
           (bs "v") [ERead 0; ERead 0]); vm_compute; try reflexivity; discriminate.
Defined.

(** ** Encoder selection in the builder *)

(** The encoder calls of the auto mode with a positive cutover [c]. *)
Definition auto_ops (c : Z) (e : bytes * value) : list write_op :=
  let '(k, v) := e in
  [WKey k; WVal (if len (coerce v) <=? c then CallS2 (coerce v)
                 else CallZstd SpeedFastest (coerce v))].

Lemma build_loop_auto : forall s2e ze opts ents pos zenc,
  Compression opts = 0 -> 0 < SizeCutover opts ->
  zenc = None \/ zenc = Some SpeedFastest ->
  snd (fst (build_loop s2e ze opts zenc pos ents))
  = flat_map (auto_ops (SizeCutover opts)) ents.
Proof.
  intros s2e ze opts ents. induction ents as [|[k v] rest IH];
    intros pos zenc Hc Hcut Hz; [reflexivity|].
  simpl. unfold choose_call. rewrite Hc.
  replace (0 <? SizeCutover opts) with true by (symmetry; now apply Z.ltb_lt).
  simpl.
  destruct (len (coerce v) >? SizeCutover opts) eqn:Hgt.
  - replace (len (coerce v) <=? SizeCutover opts) with false
      by (symmetry; apply Z.leb_gt; apply Z.gtb_lt in Hgt; lia).
    simpl.
    destruct Hz as [-> | ->]; simpl;
      specialize (IH (pos + len k + len (ze SpeedFastest (coerce v))) (Some SpeedFastest)
                     Hc Hcut (or_intror eq_refl));
      destruct (build_loop _ _ _ _ _ rest) as [[ixs ws] blob]; simpl in *;
      now rewrite IH.
  - replace (len (coerce v) <=? SizeCutover opts) with true
      by (symmetry; apply Z.leb_le; rewrite Z.gtb_ltb in Hgt; apply Z.ltb_ge in Hgt; lia).
    simpl.
    specialize (IH (pos + len k + len (s2e (coerce v))) zenc Hc Hcut Hz).
    destruct (build_loop _ _ _ _ _ rest) as [[ixs ws] blob]. simpl in *.
    now rewrite IH.
Qed.

Lemma build_writes_loop : forall s2e ze ents opts,
  build_writes s2e ze ents opts
  = snd (fst (build_loop s2e ze opts (initial_zenc opts)
                 (headerSize + Z.of_nat (length ents) * indexEntrySize) ents)).
Proof.
  intros. unfold build_writes.
  destruct (build_loop _ _ _ _ _ ents) as [[ixs ws] blob]. reflexivity.
Qed.

(** C6 (amended): in auto mode ([Compression = 0]) with a cutover [c > 0],
    each value whose coerced length is at most [c] is encoded by
    [s2.Encode], and each longer value by a zstd encoder at [SpeedFastest],
    whatever [ZstdLevel] says. *)
Theorem build_auto_encoders : forall s2e ze ents opts,
  Compression opts = 0 -> 0 < SizeCutover opts ->
  build_writes s2e ze ents opts = flat_map (auto_ops (SizeCutover opts)) ents.
Proof.
  intros s2e ze ents opts Hc Hcut. rewrite build_writes_loop.
  apply build_loop_auto; auto. left. unfold initial_zenc. now rewrite Hc.
Qed.

Lemma build_auto_encoders_witness :
  Compression (mkOpts 0 3 1) = 0 /\ 0 < SizeCutover (mkOpts 0 3 1) /\
  build_writes id_s2 id_zstd [(bs "k", VBytes (bs "ab")); (bs "l", VBytes (bs "c"))]
    (mkOpts 0 3 1)
  = flat_map (auto_ops 1) [(bs "k", VBytes (bs "ab")); (bs "l", VBytes (bs "c"))].
Proof.
  split; [reflexivity|]. split; [simpl; lia|].
  apply (build_auto_encoders id_s2 id_zstd
           [(bs "k", VBytes (bs "ab")); (bs "l", VBytes (bs "c"))] (mkOpts 0 3 1));
    simpl; [reflexivity | lia].
Defined.

(** C6 (counterexample): auto mode, [ZstdLevel = 3], cutover 1, one value
    of 2 bytes: it is encoded by a zstd encoder at [SpeedFastest], not at
    [SpeedBetterCompression]. *)
Lemma build_auto_level_counterexample :
  build_writes id_s2 id_zstd [(bs "k", VBytes (bs "ab"))] (mkOpts 0 3 1)
  = [WKey (bs "k"); WVal (CallZstd SpeedFastest (bs "ab"))] /\
  ~ In (WVal (CallZstd SpeedBetterCompression (bs "ab")))
       (build_writes id_s2 id_zstd [(bs "k", VBytes (bs "ab"))] (mkOpts 0 3 1)).
Proof.
  split; [vm_compute; reflexivity|].
  vm_compute. intros [H | [H | []]]; discriminate.
Qed.

(** The writes of a build that stores every value unencoded. *)
Definition raw_ops (e : bytes * value) : list write_op :=
  let '(k, v) := e in [WKey k; WVal (NoCall (coerce v))].

Lemma build_loop_cutover0 : forall s2e ze lvl ents pos zenc,
  snd (fst (build_loop s2e ze (mkOpts 0 lvl 0) zenc pos ents)) = flat_map raw_ops ents.
Proof.
  intros s2e ze lvl ents. induction ents as [|[k v] rest IH]; intros pos zenc;
    [reflexivity|].
  simpl. specialize (IH (pos + len k + len (coerce v)) zenc).
  destruct (build_loop _ _ _ _ _ rest) as [[ixs ws] blob]. simpl in *.
  now rewrite IH.
Qed.

(** C7: in auto mode with [SizeCutover = 0], no encoder is called: every
    value is written as its coerced bytes ([cv = vb]), not s2-encoded. *)
Theorem build_cutover0_unencoded : forall s2e ze ents lvl,
  build_writes s2e ze ents (mkOpts 0 lvl 0) = flat_map raw_ops ents.
Proof.
  intros. rewrite build_writes_loop. apply build_loop_cutover0.
Qed.

(** ** Prefix: early stop *)

(** A log with no callback invocation that returned [false]. *)
Definition no_stop (l : list event) : Prop :=
  forall k v, ~ In (EVisit k v false) l.

(** A computation whose log only records index reads. *)
Definition reads_only {A} (o : outcome A) : Prop :=
  forall e, In e (log_of o) -> exists i, e = ERead i.

(** Once a callback has returned [false], nothing more is logged and the
    computation returns normally. *)
Definition stop_last {A} (o : outcome A) : Prop :=
  forall a k v b, log_of o = a ++ EVisit k v false :: b ->
  b = [] /\ exists x, o = Done x (log_of o).

Lemma reads_only_no_stop : forall A (o : outcome A), reads_only o -> no_stop (log_of o).
Proof.
  intros A o H k v Hin. destruct (H _ Hin) as [i Hi]. discriminate.
Qed.

Lemma bind_reads_only : forall A B (m : outcome A) (f : A -> outcome B),
  reads_only m -> (forall a l, m = Done a l -> reads_only (f a)) ->
  reads_only (bind m f).
Proof.
  intros A B m f Hm Hf e Hin. destruct m as [a l1|l1]; simpl in *.
  - specialize (Hf a l1 eq_refl).
    destruct (f a) as [b l2|l2] eqn:E; simpl in Hin;
      apply in_app_or in Hin as [Hin|Hin]; auto;
      apply Hf; simpl; exact Hin.
  - now apply Hm.
Qed.

Lemma ret_reads_only : forall A (a : A), reads_only (ret a).
Proof. intros A a e []. Qed.

Lemma slice_reads_only : forall m lo hi, reads_only (slice m lo hi).
Proof.
  intros m lo hi e. unfold slice.
  destruct (_ && _); simpl; intros [].
Qed.

Create HintDb reads.
#[local] Hint Resolve ret_reads_only slice_reads_only bind_reads_only : reads.

Lemma readIndex_reads_only : forall db i, reads_only (readIndex db i).
Proof.
  intros db i. unfold readIndex.
  apply bind_reads_only.
  { intros e [<-|[]]. eauto. }
  intros _ _ _. repeat (apply bind_reads_only; [apply slice_reads_only|intros]).
  apply ret_reads_only.
Qed.

Lemma getKeySlice_reads_only : forall db i, reads_only (getKeySlice db i).
Proof.
  intros. unfold getKeySlice. apply bind_reads_only; [apply readIndex_reads_only|].
  intros [[[ko kl] vo] vl] _ _. apply slice_reads_only.
Qed.

Lemma getValSlice_reads_only : forall db i, reads_only (getValSlice db i).
Proof.
  intros. unfold getValSlice. apply bind_reads_only; [apply readIndex_reads_only|].
  intros [[[ko kl] vo] vl] _ _. apply slice_reads_only.
Qed.

Lemma findIndex_loop_reads_only : forall db key fuel lo hi,
  reads_only (findIndex_loop db key fuel lo hi).
Proof.
  intros db key fuel. induction fuel as [|f IH]; intros lo hi; simpl;
    [apply ret_reads_only|].
  destruct (lo <? hi); [|apply ret_reads_only].
  apply bind_reads_only; [apply getKeySlice_reads_only|].
  intros k _ _. destruct (bytes_compare k key); auto with reads.
Qed.

Lemma split_no_stop : forall l1 l2 a k v b,
  no_stop l1 -> l1 ++ l2 = a ++ EVisit k v false :: b ->
  exists a', a = l1 ++ a' /\ l2 = a' ++ EVisit k v false :: b.
Proof.
  induction l1 as [|x l1 IH]; intros l2 a k v b Hn Heq.
  - now exists a.
  - destruct a as [|y a]; simpl in Heq; injection Heq as Hx Hrest.
    + exfalso. apply (Hn k v). left. exact Hx.
    + subst y. destruct (IH l2 a k v b) as [a' [-> ->]]; auto.
      * intros k' v' Hin. apply (Hn k' v'). right. exact Hin.
      * now exists a'.
Qed.

Lemma ret_stop_last : forall A (x : A), stop_last (ret x).
Proof.
  intros A x a k v b H. simpl in H. exfalso. destruct a; discriminate.
Qed.

Lemma bind_stop_last : forall A B (m : outcome A) (f : A -> outcome B),
  no_stop (log_of m) -> (forall a l, m = Done a l -> stop_last (f a)) ->
  stop_last (bind m f).
Proof.
  intros A B m f Hm Hf a k v b Heq. destruct m as [x l1|l1]; simpl in *.
  - specialize (Hf x l1 eq_refl).
    destruct (f x) as [y l2|l2] eqn:E; simpl in Heq;
      destruct (split_no_stop l1 l2 a k v b Hm Heq) as [a' [_ Hl2]];
      destruct (Hf a' k v b Hl2) as [Hb [z Hz]]; split; auto.
    + now exists y.
    + discriminate.
  - exfalso. apply (Hm k v). rewrite Heq. apply in_or_app. right. now left.
Qed.

Lemma prefix_loop_stop_last : forall CS (cb : CS -> bytes -> bytes -> bool * CS)
  db p fuel i cs, stop_last (prefix_loop cb db p fuel i cs).
Proof.
  intros CS cb db p fuel. induction fuel as [|f IH]; intros i cs; cbn [prefix_loop];
    [apply ret_stop_last|].
  destruct (i <? num db); [|apply ret_stop_last].
  apply bind_stop_last.
  { apply reads_only_no_stop, getKeySlice_reads_only. }
  intros k _ _. destruct (negb (HasPrefix k p)); [apply ret_stop_last|].
  apply bind_stop_last.
  { apply reads_only_no_stop, getValSlice_reads_only. }
  intros v _ _. destruct (cb cs k v) as [[|] cs'].
  - apply bind_stop_last; [|intros; cbn [negb]; apply IH].
    intros k' v' [H|[]]. discriminate.
  - intros a k' v' b H. simpl in H.
    destruct a as [|e a]; simpl in H; injection H as _ H.
    + split; [now symmetry|]. now exists cs'.
    + exfalso. destruct a; discriminate.
Qed.

(** C9: if the callback returns [false] on a visited entry, that call is
    the last event of [Prefix]: no index entry is read and no callback is
    made after it, and [Prefix] returns normally. *)
Theorem Prefix_stops_after_false : forall CS (cb : CS -> bytes -> bytes -> bool * CS)
  db p cs a k v b,
  log_of (Prefix cb db p cs) = a ++ EVisit k v false :: b ->
  b = [] /\ exists cs', Prefix cb db p cs = Done cs' (a ++ [EVisit k v false]).
Proof.
  intros CS cb db p cs a k v b H.
  assert (Hs : stop_last (Prefix cb db p cs)).
  { unfold Prefix. apply bind_stop_last.
    - apply reads_only_no_stop, findIndex_loop_reads_only.
    - intros [idx found] _ _. apply prefix_loop_stop_last. }
  destruct (Hs a k v b H) as [Hb [cs' Hcs]]. subst b.
  split; [reflexivity|]. exists cs'. rewrite Hcs. rewrite Hcs in H. simpl in H.
  now rewrite H.
Qed.

Definition count_stop (n : nat) (_ _ : bytes) : bool * nat := (false, S n).


(** ** Prefix: soundness and order on a well-formed index *)

(** Index entry [i] as [readIndex] decodes it when no slice panics. *)
Definition entry_at (db : MMAPDB) (i : Z) : Z * Z * Z * Z :=
  let m := mdata db in
  let off := indexBase db + i * indexEntrySize in
  (le_get (sub m off (off + 8)), le_get (sub m (off + 8) (off + 12)),
   le_get (sub m (off + 12) (off + 20)), le_get (sub m (off + 20) (off + 24))).

(** The stored key and value slices of entry [i]. *)
Definition key_at (db : MMAPDB) (i : Z) : bytes :=
  let '(ko, kl, _, _) := entry_at db i in sub (mdata db) ko (ko + kl).

Definition val_at (db : MMAPDB) (i : Z) : bytes :=
  let '(_, _, vo, vl) := entry_at db i in sub (mdata db) vo (vo + vl).

Definition entry_in_bounds (db : MMAPDB) (i : Z) : Prop :=
  let '(ko, kl, vo, vl) := entry_at db i in
  ko + kl <= len (mdata db) /\ vo + vl <= len (mdata db).

(** The index table and every key and value range lie inside the mapping. *)
Record in_bounds (db : MMAPDB) : Prop := {
  ib_len : len (mdata db) < two64;
  ib_base : 0 <= indexBase db;
  ib_num : 0 <= num db;
  ib_index : indexBase db + num db * indexEntrySize <= len (mdata db);
  ib_entries : forall i, 0 <= i < num db -> entry_in_bounds db i
}.

(** Index entries strictly ascending by key bytes. *)
Definition sorted_keys (db : MMAPDB) : Prop :=
  forall i j, 0 <= i -> i < j -> j < num db -> bytes_compare (key_at db i) (key_at db j) = Lt.

(** [i, i+1, ..., i+n-1]. *)
Fixpoint zseq (i : Z) (n : nat) : list Z :=
  match n with
  | O => []
  | S n' => i :: zseq (i + 1) n'
  end.

(** The (key, value) pairs handed to the callback, in order. *)
Definition visits (l : list event) : list (bytes * bytes) :=
  flat_map (fun e => match e with EVisit k v _ => [(k, v)] | ERead _ => [] end) l.

(** *** Lexicographic order *)

Lemma bytes_compare_refl : forall x, bytes_compare x x = Eq.
Proof. induction x as [|a x IH]; simpl; [reflexivity|]. now rewrite N.compare_refl. Qed.

Lemma byte_to_N_inj : forall a b, Byte.to_N a = Byte.to_N b -> a = b.
Proof.
  intros a b H. pose proof (Byte.of_to_N a) as Ha. pose proof (Byte.of_to_N b) as Hb.
  rewrite H in Ha. rewrite Ha in Hb. now injection Hb.
Qed.

Lemma bytes_compare_eq : forall x y, bytes_compare x y = Eq -> x = y.
Proof.
  induction x as [|a x IH]; destruct y as [|b y]; simpl; try discriminate; auto.
  destruct (N.compare (Byte.to_N a) (Byte.to_N b)) eqn:E; try discriminate.
  intros H. apply N.compare_eq_iff, byte_to_N_inj in E. subst. now rewrite (IH y H).
Qed.

Lemma bytes_compare_antisym : forall x y, bytes_compare y x = CompOpp (bytes_compare x y).
Proof.
  induction x as [|a x IH]; destruct y as [|b y]; simpl; auto.
  rewrite (N.compare_antisym (Byte.to_N a) (Byte.to_N b)).
  destruct (N.compare (Byte.to_N a) (Byte.to_N b)); simpl; auto.
Qed.

Lemma bytes_compare_lt_trans : forall x y z,
  bytes_compare x y = Lt -> bytes_compare y z = Lt -> bytes_compare x z = Lt.
Proof.
  induction x as [|a x IH]; destruct y as [|b y]; destruct z as [|c z]; simpl;
    try discriminate; auto.
  destruct (N.compare (Byte.to_N a) (Byte.to_N b)) eqn:E1; try discriminate;
  destruct (N.compare (Byte.to_N b) (Byte.to_N c)) eqn:E2; try discriminate;
  intros H1 H2.
  - apply N.compare_eq_iff in E1, E2. rewrite E1, E2, N.compare_refl. eauto.
  - apply N.compare_eq_iff in E1. now rewrite E1, E2.
  - apply N.compare_eq_iff in E2. now rewrite <- E2, E1.
  - apply N.compare_lt_iff in E1, E2.
    replace (N.compare (Byte.to_N a) (Byte.to_N c)) with Lt; [reflexivity|].
    symmetry. apply N.compare_lt_iff. eapply N.lt_trans; eassumption.
Qed.

Lemma bytes_compare_gt_lt : forall x y, bytes_compare x y = Gt <-> bytes_compare y x = Lt.
Proof.
  intros. rewrite (bytes_compare_antisym x y).
  destruct (bytes_compare x y); simpl; split; congruence.
Qed.

(** *** Prefixes *)

Lemma HasPrefix_spec : forall s p, HasPrefix s p = true <-> exists r, s = p ++ r.
Proof.
  intros s p. unfold HasPrefix. split.
  - intros H. apply andb_prop in H as [_ H]. apply bytes_equal_spec in H.
    exists (skipn (length p) s). rewrite <- H at 1. symmetry. apply firstn_skipn.
  - intros [r ->]. apply andb_true_intro. split.
    + apply Nat.leb_le. rewrite length_app. lia.
    + apply bytes_equal_spec. rewrite firstn_app, Nat.sub_diag, firstn_O, app_nil_r.
      apply firstn_all.
Qed.

Lemma prefix_not_lt : forall p r, bytes_compare (p ++ r) p <> Lt.
Proof.
  induction p as [|a p IH]; intros r; simpl.
  - destruct r; discriminate.
  - rewrite N.compare_refl. apply IH.
Qed.

(** A byte string between [p] and an extension of [p] extends [p]. *)
Lemma prefix_between : forall p r x,
  bytes_compare x p <> Lt -> bytes_compare x (p ++ r) <> Gt ->
  exists r', x = p ++ r'.
Proof.
  induction p as [|a p IH]; intros r x H1 H2.
  - now exists x.
  - destruct x as [|b x]; simpl in H1; [congruence|].
    simpl in H2. destruct (N.compare (Byte.to_N b) (Byte.to_N a)) eqn:E; try congruence.
    apply N.compare_eq_iff, byte_to_N_inj in E. subst b.
    destruct (IH r x H1 H2) as [r' ->]. now exists r'.
Qed.

(** *** Arithmetic of the index *)

Lemma u64_small : forall z, 0 <= z < two64 -> u64 z = z.
Proof. intros z Hz. unfold u64. now apply Z.mod_small. Qed.

Lemma slice_ok : forall m lo hi,
  0 <= lo -> lo <= hi -> hi <= len m -> slice m lo hi = ret (sub m lo hi).
Proof.
  intros m lo hi H0 H1 H2. unfold slice.
  rewrite (proj2 (Z.leb_le _ _) H1), (proj2 (Z.leb_le _ _) H2). reflexivity.
Qed.

Lemma le_get_nonneg : forall l, 0 <= le_get l.
Proof.
  induction l as [|b r IH]; [simpl; lia|].
  change (le_get (b :: r)) with (bval b + 256 * le_get r).
  unfold bval. pose proof (N2Z.is_nonneg (Byte.to_N b)). lia.
Qed.

Lemma readIndex_ok : forall db i, in_bounds db -> 0 <= i < num db ->
  readIndex db i = Done (entry_at db i) [ERead i].
Proof.
  intros db i Hb Hi. destruct Hb as [Hlen Hbase Hnum Hidx _].
  unfold readIndex, entry_at. cbv zeta.
  unfold indexEntrySize in *.
  assert (E1 : u64 (i * (8 + 4 + 8 + 4)) = i * (8 + 4 + 8 + 4))
    by (apply u64_small; unfold two64 in *; nia).
  rewrite E1.
  assert (E2 : u64 (indexBase db + i * (8 + 4 + 8 + 4)) = indexBase db + i * (8 + 4 + 8 + 4))
    by (apply u64_small; unfold two64 in *; nia).
  rewrite E2.
  assert (Hend : indexBase db + i * (8 + 4 + 8 + 4) + 24 <= len (mdata db)) by nia.
  repeat (rewrite u64_small by (unfold two64 in *; nia)).
  repeat (rewrite slice_ok by nia).
  reflexivity.
Qed.

Lemma entry_at_nonneg : forall db i,
  let '(ko, kl, vo, vl) := entry_at db i in 0 <= ko /\ 0 <= kl /\ 0 <= vo /\ 0 <= vl.
Proof. intros. unfold entry_at. repeat split; apply le_get_nonneg. Qed.

Lemma getKeySlice_ok : forall db i, in_bounds db -> 0 <= i < num db ->
  getKeySlice db i = Done (key_at db i) [ERead i].
Proof.
  intros db i Hb Hi. unfold getKeySlice, key_at. rewrite readIndex_ok by auto.
  pose proof (ib_entries db Hb i Hi) as He. pose proof (ib_len db Hb) as Hl.
  pose proof (entry_at_nonneg db i) as Hn. unfold entry_in_bounds in He.
  destruct (entry_at db i) as [[[ko kl] vo] vl].
  destruct He as [He _]. destruct Hn as (H1 & H2 & _).
  cbn [bind]. rewrite u64_small by (unfold two64 in *; lia).
  rewrite slice_ok by lia. reflexivity.
Qed.

Lemma getValSlice_ok : forall db i, in_bounds db -> 0 <= i < num db ->
  getValSlice db i = Done (val_at db i) [ERead i].
Proof.
  intros db i Hb Hi. unfold getValSlice, val_at. rewrite readIndex_ok by auto.
  pose proof (ib_entries db Hb i Hi) as He. pose proof (ib_len db Hb) as Hl.
  pose proof (entry_at_nonneg db i) as Hn. unfold entry_in_bounds in He.
  destruct (entry_at db i) as [[[ko kl] vo] vl].
  destruct He as [_ He]. destruct Hn as (_ & _ & H1 & H2).
  cbn [bind]. rewrite u64_small by (unfold two64 in *; lia).
  rewrite slice_ok by lia. reflexivity.
Qed.

(** *** Binary search *)

Lemma findIndex_loop_spec : forall db p, in_bounds db -> sorted_keys db ->
  forall fuel lo hi, 0 <= lo <= hi -> hi <= num db -> hi - lo < Z.of_nat fuel ->
  (forall j, 0 <= j < lo -> bytes_compare (key_at db j) p = Lt) ->
  (forall j, hi <= j < num db -> bytes_compare (key_at db j) p = Gt) ->
  exists idx found l, findIndex_loop db p fuel lo hi = Done (idx, found) l /\
    0 <= idx <= num db /\
    (forall j, 0 <= j < idx -> bytes_compare (key_at db j) p = Lt) /\
    (forall j, idx <= j < num db -> bytes_compare (key_at db j) p <> Lt).
Proof.
  intros db p Hb Hs fuel. induction fuel as [|f IH]; intros lo hi Hlo Hhi Hf Hl Hg;
    [simpl in Hf; lia|].
  cbn [findIndex_loop].
  destruct (lo <? hi) eqn:Elt.
  2: { apply Z.ltb_ge in Elt. exists lo, false, []. split; [reflexivity|].
       split; [lia|]. split; [exact Hl|].
       intros j Hj. rewrite Hg by lia. discriminate. }
  apply Z.ltb_lt in Elt.
  pose proof (ib_len db Hb) as Hlen. pose proof (ib_index db Hb) as Hidx.
  pose proof (ib_base db Hb) as Hbase.
  assert (Hmid : Z.shiftr (u64 (lo + hi)) 1 = (lo + hi) / 2).
  { rewrite u64_small by (unfold two64, indexEntrySize in *; lia).
    rewrite Z.shiftr_div_pow2 by lia. reflexivity. }
  rewrite Hmid. set (mid := (lo + hi) / 2).
  assert (Hm : lo <= mid < hi) by (unfold mid; split;
    [apply Z.div_le_lower_bound | apply Z.div_lt_upper_bound]; lia).
  rewrite getKeySlice_ok by (auto; lia). cbn [bind].
  destruct (bytes_compare (key_at db mid) p) eqn:Ec.
  - exists mid, true, [ERead mid]. split; [reflexivity|].
    apply bytes_compare_eq in Ec.
    split; [lia|]. split.
    + intros j Hj. rewrite <- Ec. apply Hs; lia.
    + intros j Hj. destruct (Z.eq_dec j mid) as [->|Hne].
      * rewrite Ec, bytes_compare_refl. discriminate.
      * rewrite <- Ec. rewrite (proj2 (bytes_compare_gt_lt _ _)) by (apply Hs; lia).
        discriminate.
  - rewrite u64_small by (unfold two64, indexEntrySize in *; lia).
    assert (Hl' : forall j, 0 <= j < mid + 1 -> bytes_compare (key_at db j) p = Lt).
    { intros j Hj. destruct (Z.lt_ge_cases j lo); [apply Hl; lia|].
      destruct (Z.eq_dec j mid) as [->|Hne]; [exact Ec|].
      apply bytes_compare_lt_trans with (key_at db mid); [apply Hs; lia | exact Ec]. }
    destruct (IH (mid + 1) hi ltac:(lia) ltac:(lia) ltac:(lia) Hl' Hg)
      as (idx & found & l & Heq & H1 & H2 & H3).
    rewrite Heq. exists idx, found, ([ERead mid] ++ l). auto.
  - assert (Hg' : forall j, mid <= j < num db -> bytes_compare (key_at db j) p = Gt).
    { intros j Hj. destruct (Z.lt_ge_cases j hi); [|apply Hg; lia].
      destruct (Z.eq_dec j mid) as [->|Hne]; [exact Ec|].
      apply bytes_compare_gt_lt. apply bytes_compare_gt_lt in Ec.
      apply bytes_compare_lt_trans with (key_at db mid); [exact Ec | apply Hs; lia]. }
    destruct (IH lo mid ltac:(lia) ltac:(lia) ltac:(lia) Hl Hg')
      as (idx & found & l & Heq & H1 & H2 & H3).
    rewrite Heq. exists idx, found, ([ERead mid] ++ l). auto.
Qed.

Lemma findIndex_spec : forall db p, in_bounds db -> sorted_keys db ->
  exists idx found l, findIndex db p = Done (idx, found) l /\
    0 <= idx <= num db /\
    (forall j, 0 <= j < idx -> bytes_compare (key_at db j) p = Lt) /\
    (forall j, idx <= j < num db -> bytes_compare (key_at db j) p <> Lt).
Proof.
  intros db p Hb Hs. pose proof (ib_num db Hb).
  apply findIndex_loop_spec; auto; try lia.
Qed.

(** *** Index ranges *)

Lemma zseq_In : forall n i j, In j (zseq i n) <-> i <= j < i + Z.of_nat n.
Proof.
  induction n as [|n IH]; intros i j; simpl; [lia|].
  rewrite IH. lia.
Qed.

Lemma zseq_app : forall n m i, zseq i (n + m) = zseq i n ++ zseq (i + Z.of_nat n) m.
Proof.
  induction n as [|n IH]; intros m i; simpl.
  - now rewrite Z.add_0_r.
  - rewrite IH. do 2 f_equal. f_equal. lia.
Qed.

Lemma visits_app : forall l1 l2, visits (l1 ++ l2) = visits l1 ++ visits l2.
Proof. intros. unfold visits. apply flat_map_app. Qed.

Lemma filter_all_false : forall A (f : A -> bool) l,
  (forall x, In x l -> f x = false) -> filter f l = [].
Proof.
  intros A f l H. induction l as [|x l IH]; simpl; [reflexivity|].
  rewrite H by (left; reflexivity). apply IH. intros y Hy. apply H. now right.
Qed.

Lemma reads_only_visits : forall A (o : outcome A), reads_only o -> visits (log_of o) = [].
Proof.
  intros A o H. unfold reads_only in H. induction (log_of o) as [|e l IH]; [reflexivity|].
  destruct (H e (or_introl eq_refl)) as [i ->]. apply IH.
  intros e' He'. apply H. now right.
Qed.

Lemma zseq_sorted : forall n i, StronglySorted Z.lt (zseq i n).
Proof.
  induction n as [|n IH]; intros i; simpl; constructor; auto.
  apply Forall_forall. intros x Hx. apply zseq_In in Hx. lia.
Qed.

Lemma filter_sorted : forall A (R : A -> A -> Prop) f l,
  StronglySorted R l -> StronglySorted R (filter f l).
Proof.
  intros A R f l H. induction H as [|a l Hl IH Hf]; simpl; [constructor|].
  destruct (f a); [|exact IH].
  constructor; [exact IH|]. apply Forall_forall. intros x Hx.
  apply filter_In in Hx as [Hx _]. now apply (proj1 (Forall_forall _ _) Hf).
Qed.

Lemma map_keys_sorted : forall db l, sorted_keys db ->
  StronglySorted Z.lt l -> (forall j, In j l -> 0 <= j < num db) ->
  StronglySorted (fun x y => bytes_compare (fst x) (fst y) = Lt)
                 (map (fun j => (key_at db j, val_at db j)) l).
Proof.
  intros db l Hs H. induction H as [|a l Hl IH Hf]; intros Hr; simpl; [constructor|].
  constructor.
  - apply IH. intros j Hj. apply Hr. now right.
  - apply Forall_forall. intros [k v] Hx. apply in_map_iff in Hx as [j [Hj Hin]].
    injection Hj as <- <-. simpl. apply Hs.
    + apply (Hr a). now left.
    + now apply (proj1 (Forall_forall _ _) Hf).
    + apply Hr. now right.
Qed.

(** *** The scan *)

Lemma prefix_loop_spec : forall CS (cb : CS -> bytes -> bytes -> bool * CS) db p,
  in_bounds db -> sorted_keys db -> (forall s k v, fst (cb s k v) = true) ->
  forall n i cs, 0 <= i -> i + Z.of_nat n = num db ->
  (forall j, i <= j < num db -> bytes_compare (key_at db j) p <> Lt) ->
  exists cs' l, prefix_loop cb db p n i cs = Done cs' l /\
    visits l = map (fun j => (key_at db j, val_at db j))
                   (filter (fun j => HasPrefix (key_at db j) p) (zseq i n)).
Proof.
  intros CS cb db p Hb Hs Hcb n. induction n as [|n IH]; intros i cs Hi Hn Hge.
  - exists cs, []. split; reflexivity.
  - cbn [prefix_loop]. rewrite (proj2 (Z.ltb_lt i (num db))) by lia.
    rewrite (getKeySlice_ok db i Hb) by lia. cbn [bind zseq filter].
    destruct (HasPrefix (key_at db i) p) eqn:Hp; cbn [negb].
    + rewrite (getValSlice_ok db i Hb) by lia. cbn [bind].
      destruct (cb cs (key_at db i) (val_at db i)) as [cont cs'] eqn:Ecb.
      assert (Hc : cont = true).
      { specialize (Hcb cs (key_at db i) (val_at db i)). now rewrite Ecb in Hcb. }
      subst cont. cbn [bind tell negb].
      rewrite (u64_small (i + 1)) by (pose proof (ib_len db Hb); pose proof (ib_index db Hb);
        pose proof (ib_base db Hb); unfold two64, indexEntrySize in *; lia).
      destruct (IH (i + 1) cs' ltac:(lia) ltac:(lia) ltac:(intros; apply Hge; lia))
        as (cs'' & l & Heq & Hv).
      rewrite Heq. cbn [bind].
      eexists _, _. split; [reflexivity|].
      rewrite !visits_app, Hv. reflexivity.
    + exists cs, ([ERead i] ++ []). split; [reflexivity|].
      rewrite filter_all_false; [reflexivity|].
      intros x Hx. apply zseq_In in Hx.
      destruct (HasPrefix (key_at db x) p) eqn:Hxp; [exfalso|reflexivity].
      apply HasPrefix_spec in Hxp as [r Hr].
      assert (Hbetween : exists r', key_at db i = p ++ r').
      { apply (prefix_between p r).
        - apply Hge. lia.
        - rewrite <- Hr, (Hs i x) by lia. discriminate. }
      apply HasPrefix_spec in Hbetween. congruence.
Qed.

(** C8: on a reader whose index and key/value ranges lie inside the mapping
    and whose keys are strictly ascending, [Prefix(p, cb)] with a callback
    that keeps returning [true] returns normally, and the callback receives
    exactly the stored (key, value) slices of the entries whose key has [p]
    as a prefix, in index order; the visited keys are strictly ascending
    (so no key is visited twice). *)
Theorem Prefix_visits_matching_keys :
  forall CS (cb : CS -> bytes -> bytes -> bool * CS) db p cs,
  in_bounds db -> sorted_keys db -> (forall s k v, fst (cb s k v) = true) ->
  exists cs' l, Prefix cb db p cs = Done cs' l /\
    visits l = map (fun j => (key_at db j, val_at db j))
                   (filter (fun j => HasPrefix (key_at db j) p)
                           (zseq 0 (Z.to_nat (num db)))) /\
    StronglySorted (fun x y => bytes_compare (fst x) (fst y) = Lt) (visits l).
Proof.
  intros CS cb db p cs Hb Hs Hcb.
  destruct (findIndex_spec db p Hb Hs) as (idx & found & l1 & Hf & Hidx & Hlt & Hge).
  assert (Hl1 : visits l1 = []).
  { change l1 with (log_of (@Done (Z * bool) (idx, found) l1)). rewrite <- Hf.
    apply reads_only_visits, findIndex_loop_reads_only. }
  unfold Prefix. rewrite Hf. cbn [bind].
  destruct (prefix_loop_spec CS cb db p Hb Hs Hcb (Z.to_nat (num db - idx)) idx cs
              ltac:(lia) ltac:(lia) Hge) as (cs' & l2 & Hl & Hv).
  rewrite Hl. exists cs', (l1 ++ l2). split; [reflexivity|].
  assert (Hv' : visits (l1 ++ l2)
                = map (fun j => (key_at db j, val_at db j))
                      (filter (fun j => HasPrefix (key_at db j) p)
                              (zseq 0 (Z.to_nat (num db))))).
  { rewrite visits_app, Hl1, Hv. simpl.
    replace (Z.to_nat (num db)) with (Z.to_nat idx + Z.to_nat (num db - idx))%nat by lia.
    rewrite zseq_app, filter_app, map_app.
    rewrite (filter_all_false _ _ (zseq 0 (Z.to_nat idx))).
    - simpl. do 3 f_equal. lia.
    - intros x Hx. apply zseq_In in Hx.
      destruct (HasPrefix (key_at db x) p) eqn:Hxp; [exfalso|reflexivity].
      apply HasPrefix_spec in Hxp as [r Hr].
      apply (prefix_not_lt p r). rewrite <- Hr. apply Hlt. lia. }
  split; [exact Hv'|]. rewrite Hv'.
  apply map_keys_sorted; [exact Hs| |].
  - apply filter_sorted, zseq_sorted.
  - intros j Hj. apply filter_In in Hj as [Hj _]. apply zseq_In in Hj. lia.
Qed.

Definition scan_db : MMAPDB :=
  parse_db (BuildWithOptions id_s2 id_zstd
              [(bs "a1", VBytes (bs "v1")); (bs "a2", VBytes (bs "v2"));
               (bs "b1", VBytes (bs "v3"))] (mkOpts 1 1 0)).

Definition count_all (n : nat) (k v : bytes) : bool * nat := (true, S n).

Lemma scan_db_in_bounds : in_bounds scan_db.
Proof.
  constructor; try (vm_compute; congruence).
  intros i Hi. assert (Hn : num scan_db = 3) by (vm_compute; reflexivity).
  rewrite Hn in Hi. assert (Hc : i = 0 \/ i = 1 \/ i = 2) by lia.
  destruct Hc as [-> | [-> | ->]]; vm_compute; split; congruence.
Qed.

Lemma scan_db_sorted : sorted_keys scan_db.
Proof.
  intros i j Hi Hij Hj. assert (Hn : num scan_db = 3) by (vm_compute; reflexivity).
  rewrite Hn in Hj.
  assert (Hc : (i = 0 /\ j = 1) \/ (i = 0 /\ j = 2) \/ (i = 1 /\ j = 2)) by lia.
  destruct Hc as [[-> ->] | [[-> ->] | [-> ->]]]; vm_compute; reflexivity.
Qed.

(** The callback stops on the first of the two entries matching ["a"]: the
    second match, [a2], is neither read nor visited. *)
Lemma Prefix_stops_after_false_witness :
  HasPrefix (key_at scan_db 1) (bs "a") = true /\
  log_of (Prefix count_stop scan_db (bs "a") 0%nat)
  = [ERead 1; ERead 0; ERead 0; ERead 0] ++ EVisit (bs "a1") (bs "v1") false :: [] /\
  exists cs', Prefix count_stop scan_db (bs "a") 0%nat
              = Done cs' ([ERead 1; ERead 0; ERead 0; ERead 0]
                          ++ [EVisit (bs "a1") (bs "v1") false]).
Proof.
  assert (H : log_of (Prefix count_stop scan_db (bs "a") 0%nat)
              = [ERead 1; ERead 0; ERead 0; ERead 0]
                ++ EVisit (bs "a1") (bs "v1") false :: [])
    by (vm_compute; reflexivity).
  split; [vm_compute; reflexivity|]. split; [exact H|].
  exact (proj2 (Prefix_stops_after_false nat count_stop scan_db (bs "a") 0%nat
                  [ERead 1; ERead 0; ERead 0; ERead 0] (bs "a1") (bs "v1") [] H)).
Defined.

Lemma Prefix_visits_matching_keys_witness :
  in_bounds scan_db /\ sorted_keys scan_db /\
  (forall s k v, fst (count_all s k v) = true) /\
  exists cs' l, Prefix count_all scan_db (bs "a") 0%nat = Done cs' l /\
    visits l = map (fun j => (key_at scan_db j, val_at scan_db j))
                   (filter (fun j => HasPrefix (key_at scan_db j) (bs "a"))
                           (zseq 0 (Z.to_nat (num scan_db)))) /\
    StronglySorted (fun x y => bytes_compare (fst x) (fst y) = Lt) (visits l).
Proof.
  split; [exact scan_db_in_bounds|]. split; [exact scan_db_sorted|].
  split; [intros; reflexivity|].
  exact (Prefix_visits_matching_keys nat count_all scan_db (bs "a") 0%nat
           scan_db_in_bounds scan_db_sorted (fun s k v => eq_refl)).
Defined.

(** ** Further properties of the reader *)

(** *** Binary search: result and cost *)

Lemma log2_step : forall s s', 0 <= s' -> 0 < s -> 2 * s' <= s ->
  1 + Z.log2 (2 * s') <= Z.log2 (2 * s).
Proof.
  intros s s' H0 H1 H2. rewrite (Z.log2_double s) by lia.
  destruct (Z.eq_dec s' 0) as [->|Hne].
  - simpl. pose proof (Z.log2_nonneg s). lia.
  - rewrite Z.log2_double by lia. pose proof (Z.log2_le_mono (2 * s') s H2).
    rewrite Z.log2_double in H by lia. lia.
Qed.

Lemma log2_double_le : forall n, 0 <= n -> Z.log2 (2 * n) <= Z.log2 n + 1.
Proof.
  intros n Hn. destruct (Z.eq_dec n 0) as [->|Hne]; [simpl; lia|].
  rewrite Z.log2_double by lia. lia.
Qed.

Lemma mid_bounds : forall lo hi, 0 <= lo < hi ->
  lo <= (lo + hi) / 2 < hi /\ lo + hi <= 2 * ((lo + hi) / 2) + 1
  /\ 2 * ((lo + hi) / 2) <= lo + hi.
Proof.
  intros lo hi H. pose proof (Z.div_mod (lo + hi) 2 ltac:(lia)).
  pose proof (Z.mod_pos_bound (lo + hi) 2 ltac:(lia)). repeat split; lia.
Qed.

Lemma findIndex_loop_full : forall db p, in_bounds db -> sorted_keys db ->
  forall fuel lo hi, 0 <= lo <= hi -> hi <= num db -> hi - lo < Z.of_nat fuel ->
  (forall j, 0 <= j < lo -> bytes_compare (key_at db j) p = Lt) ->
  (forall j, hi <= j < num db -> bytes_compare (key_at db j) p = Gt) ->
  exists idx found l, findIndex_loop db p fuel lo hi = Done (idx, found) l /\
    0 <= idx <= num db /\
    (forall j, 0 <= j < idx -> bytes_compare (key_at db j) p = Lt) /\
    (found = true -> idx < num db /\ key_at db idx = p) /\
    (found = false -> forall j, idx <= j < num db -> bytes_compare (key_at db j) p = Gt).
Proof.
  intros db p Hb Hs fuel. induction fuel as [|f IH]; intros lo hi Hlo Hhi Hf Hl Hg;
    [simpl in Hf; lia|].
  cbn [findIndex_loop].
  destruct (lo <? hi) eqn:Elt.
  2: { apply Z.ltb_ge in Elt. exists lo, false, []. split; [reflexivity|].
       split; [lia|]. split; [exact Hl|]. split; [discriminate|].
       intros _ j Hj. apply Hg. lia. }
  apply Z.ltb_lt in Elt.
  pose proof (ib_len db Hb) as Hlen. pose proof (ib_index db Hb) as Hidx.
  pose proof (ib_base db Hb) as Hbase.
  assert (Hmid : Z.shiftr (u64 (lo + hi)) 1 = (lo + hi) / 2).
  { rewrite u64_small by (unfold two64, indexEntrySize in *; lia).
    rewrite Z.shiftr_div_pow2 by lia. reflexivity. }
  rewrite Hmid. pose proof (mid_bounds lo hi ltac:(lia)) as Hm.
  set (mid := (lo + hi) / 2) in *.
  rewrite (getKeySlice_ok db mid Hb) by lia. cbn [bind].
  destruct (bytes_compare (key_at db mid) p) eqn:Ec.
  - exists mid, true, [ERead mid]. split; [reflexivity|].
    apply bytes_compare_eq in Ec.
    split; [lia|]. split; [|split; [intros _; split; [lia | exact Ec] | discriminate]].
    intros j Hj. rewrite <- Ec. apply Hs; lia.
  - rewrite u64_small by (unfold two64, indexEntrySize in *; lia).
    assert (Hl' : forall j, 0 <= j < mid + 1 -> bytes_compare (key_at db j) p = Lt).
    { intros j Hj. destruct (Z.lt_ge_cases j lo); [apply Hl; lia|].
      destruct (Z.eq_dec j mid) as [->|Hne]; [exact Ec|].
      apply bytes_compare_lt_trans with (key_at db mid); [apply Hs; lia | exact Ec]. }
    destruct (IH (mid + 1) hi ltac:(lia) ltac:(lia) ltac:(lia) Hl' Hg)
      as (idx & found & l & Heq & H1 & H2 & H3 & H4).
    rewrite Heq. exists idx, found, ([ERead mid] ++ l). auto.
  - assert (Hg' : forall j, mid <= j < num db -> bytes_compare (key_at db j) p = Gt).
    { intros j Hj. destruct (Z.lt_ge_cases j hi); [|apply Hg; lia].
      destruct (Z.eq_dec j mid) as [->|Hne]; [exact Ec|].
      apply bytes_compare_gt_lt. apply bytes_compare_gt_lt in Ec.
      apply bytes_compare_lt_trans with (key_at db mid); [exact Ec | apply Hs; lia]. }
    destruct (IH lo mid ltac:(lia) ltac:(lia) ltac:(lia) Hl Hg')
      as (idx & found & l & Heq & H1 & H2 & H3 & H4).
    rewrite Heq. exists idx, found, ([ERead mid] ++ l). auto.
Qed.

Lemma findIndex_full : forall db p, in_bounds db -> sorted_keys db ->
  exists idx found l, findIndex db p = Done (idx, found) l /\
    0 <= idx <= num db /\
    (forall j, 0 <= j < idx -> bytes_compare (key_at db j) p = Lt) /\
    (found = true -> idx < num db /\ key_at db idx = p) /\
    (found = false -> forall j, idx <= j < num db -> bytes_compare (key_at db j) p = Gt).
Proof.
  intros db p Hb Hs. pose proof (ib_num db Hb).
  apply findIndex_loop_full; auto; try lia.
Qed.

Lemma findIndex_loop_reads : forall db p, in_bounds db ->
  forall fuel lo hi, 0 <= lo <= hi -> hi <= num db ->
  exists r l, findIndex_loop db p fuel lo hi = Done r l /\
    Z.of_nat (length l) <= Z.log2 (2 * (hi - lo)).
Proof.
  intros db p Hb fuel. induction fuel as [|f IH]; intros lo hi Hlo Hhi.
  - exists (lo, false), []. split; [reflexivity|]. simpl.
    apply Z.log2_nonneg.
  - cbn [findIndex_loop].
    destruct (lo <? hi) eqn:Elt.
    2: { exists (lo, false), []. split; [reflexivity|]. simpl. apply Z.log2_nonneg. }
    apply Z.ltb_lt in Elt.
    pose proof (ib_len db Hb) as Hlen. pose proof (ib_index db Hb) as Hidx.
    pose proof (ib_base db Hb) as Hbase.
    assert (Hmid : Z.shiftr (u64 (lo + hi)) 1 = (lo + hi) / 2).
    { rewrite u64_small by (unfold two64, indexEntrySize in *; lia).
      rewrite Z.shiftr_div_pow2 by lia. reflexivity. }
    rewrite Hmid. pose proof (mid_bounds lo hi ltac:(lia)) as Hm.
    set (mid := (lo + hi) / 2) in *.
    rewrite (getKeySlice_ok db mid Hb) by lia. cbn [bind].
    destruct (bytes_compare (key_at db mid) p).
    + exists (mid, true), [ERead mid]. split; [reflexivity|].
      pose proof (log2_step (hi - lo) 0 ltac:(lia) ltac:(lia) ltac:(lia)). simpl in *. lia.
    + rewrite u64_small by (unfold two64, indexEntrySize in *; lia).
      destruct (IH (mid + 1) hi ltac:(lia) ltac:(lia)) as (r & l & Heq & Hn).
      rewrite Heq. exists r, ([ERead mid] ++ l). split; [reflexivity|].
      pose proof (log2_step (hi - lo) (hi - (mid + 1)) ltac:(lia) ltac:(lia) ltac:(lia)).
      simpl length. lia.
    + destruct (IH lo mid ltac:(lia) ltac:(lia)) as (r & l & Heq & Hn).
      rewrite Heq. exists r, ([ERead mid] ++ l). split; [reflexivity|].
      pose proof (log2_step (hi - lo) (mid - lo) ltac:(lia) ltac:(lia) ltac:(lia)).
      simpl length. lia.
Qed.

Lemma sorted_key_inj : forall db i j, sorted_keys db ->
  0 <= i < num db -> 0 <= j < num db -> key_at db i = key_at db j -> i = j.
Proof.
  intros db i j Hs Hi Hj E. destruct (Z.lt_total i j) as [H|[H|H]]; auto; exfalso.
  - pose proof (Hs i j ltac:(lia) H ltac:(lia)) as C.
    rewrite E, bytes_compare_refl in C. discriminate.
  - pose proof (Hs j i ltac:(lia) H ltac:(lia)) as C.
    rewrite E, bytes_compare_refl in C. discriminate.
Qed.

Lemma GetRaw_found_ok : forall db key idx l, in_bounds db -> 0 <= idx < num db ->
  findIndex db key = Done (idx, true) l ->
  GetRaw db key = Done (Some (val_at db idx)) (l ++ [ERead idx]).
Proof.
  intros db key idx l Hb Hi Hf. unfold GetRaw. rewrite Hf. cbn [bind negb].
  rewrite (readIndex_ok db idx Hb Hi). unfold val_at.
  pose proof (ib_entries db Hb idx Hi) as He. pose proof (ib_len db Hb) as Hl.
  pose proof (entry_at_nonneg db idx) as Hn. unfold entry_in_bounds in He.
  destruct (entry_at db idx) as [[[ko kl] vo] vl].
  destruct He as [_ He]. destruct Hn as (_ & _ & H1 & H2).
  cbn [bind]. rewrite u64_small by (unfold two64 in *; lia).
  rewrite slice_ok by lia. cbn [bind ret]. rewrite !app_nil_r. reflexivity.
Qed.

Lemma GetRaw_notfound_ok : forall db key idx l,
  findIndex db key = Done (idx, false) l -> GetRaw db key = Done None l.
Proof.
  intros db key idx l Hf. unfold GetRaw. rewrite Hf. cbn [bind negb ret].
  now rewrite app_nil_r.
Qed.

(** *** Prefix with any callback *)

Lemma prefix_loop_any : forall CS (cb : CS -> bytes -> bytes -> bool * CS) db p,
  in_bounds db -> sorted_keys db ->
  forall n i cs, 0 <= i -> i + Z.of_nat n = num db ->
  (forall j, i <= j < num db -> bytes_compare (key_at db j) p <> Lt) ->
  exists cs' l rest, prefix_loop cb db p n i cs = Done cs' l /\
    visits l ++ rest = map (fun j => (key_at db j, val_at db j))
                   (filter (fun j => HasPrefix (key_at db j) p) (zseq i n)).
Proof.
  intros CS cb db p Hb Hs n. induction n as [|n IH]; intros i cs Hi Hn Hge.
  - exists cs, [], []. split; reflexivity.
  - cbn [prefix_loop]. rewrite (proj2 (Z.ltb_lt i (num db))) by lia.
    rewrite (getKeySlice_ok db i Hb) by lia. cbn [bind zseq filter].
    destruct (HasPrefix (key_at db i) p) eqn:Hp; cbn [negb].
    + rewrite (getValSlice_ok db i Hb) by lia. cbn [bind].
      destruct (cb cs (key_at db i) (val_at db i)) as [cont cs'] eqn:Ecb.
      destruct cont; cbn [bind tell negb].
      * rewrite (u64_small (i + 1)) by (pose proof (ib_len db Hb); pose proof (ib_index db Hb);
          pose proof (ib_base db Hb); unfold two64, indexEntrySize in *; lia).
        destruct (IH (i + 1) cs' ltac:(lia) ltac:(lia) ltac:(intros; apply Hge; lia))
          as (cs'' & l & rest & Heq & Hv).
        rewrite Heq. cbn [bind].
        eexists _, _, rest. split; [reflexivity|].
        transitivity ((key_at db i, val_at db i) :: (visits l ++ rest)); [reflexivity|].
        rewrite Hv. reflexivity.
      * eexists _, _, _. split; [reflexivity|].
        rewrite !visits_app. reflexivity.
    + exists cs, ([ERead i] ++ []), []. split; [reflexivity|].
      rewrite filter_all_false; [reflexivity|].
      intros x Hx. apply zseq_In in Hx.
      destruct (HasPrefix (key_at db x) p) eqn:Hxp; [exfalso|reflexivity].
      apply HasPrefix_spec in Hxp as [r Hr].
      assert (Hbetween : exists r', key_at db i = p ++ r').
      { apply (prefix_between p r).
        - apply Hge. lia.
        - rewrite <- Hr, (Hs i x) by lia. discriminate. }
      apply HasPrefix_spec in Hbetween. congruence.
Qed.

(** The entries before the insertion point of [p] do not have [p] as a
    prefix: the matching entries of the whole index are those from there. *)
Lemma matches_from_insertion_point : forall db p idx,
  0 <= idx <= num db ->
  (forall j, 0 <= j < idx -> bytes_compare (key_at db j) p = Lt) ->
  filter (fun j => HasPrefix (key_at db j) p) (zseq 0 (Z.to_nat (num db)))
  = filter (fun j => HasPrefix (key_at db j) p) (zseq idx (Z.to_nat (num db - idx))).
Proof.
  intros db p idx Hidx Hlt.
  replace (Z.to_nat (num db)) with (Z.to_nat idx + Z.to_nat (num db - idx))%nat by lia.
  rewrite zseq_app, filter_app.
  rewrite (filter_all_false _ _ (zseq 0 (Z.to_nat idx))).
  - simpl. do 2 f_equal. lia.
  - intros x Hx. apply zseq_In in Hx.
    destruct (HasPrefix (key_at db x) p) eqn:Hxp; [exfalso|reflexivity].
    apply HasPrefix_spec in Hxp as [r Hr].
    apply (prefix_not_lt p r). rewrite <- Hr. apply Hlt. lia.
Qed.

Lemma findIndex_reads_log_aux : forall db p, in_bounds db ->
  exists r l, findIndex db p = Done r l /\ Z.of_nat (length l) <= Z.log2 (num db) + 1.
Proof.
  intros db p Hb. pose proof (ib_num db Hb).
  destruct (findIndex_loop_reads db p Hb (S (Z.to_nat (num db))) 0 (num db)
              ltac:(lia) ltac:(lia)) as (r & l & Hf & Hn).
  exists r, l. split; [exact Hf|].
  pose proof (log2_double_le (num db) H). rewrite Z.sub_0_r in Hn. lia.
Qed.

(** *** Lookups on a well-formed reader *)

(** findIndex on a reader whose entries are in bounds and strictly ascending
    by key: it returns normally; [found] holds exactly when some entry has
    the key, and then [idx] is that entry; otherwise [idx] is the insertion
    point (keys before it are smaller, keys from it on are greater). *)
Theorem findIndex_result : forall db p, in_bounds db -> sorted_keys db ->
  exists idx found l, findIndex db p = Done (idx, found) l /\
    0 <= idx <= num db /\
    (found = true <-> exists j, 0 <= j < num db /\ key_at db j = p) /\
    (found = true -> idx < num db /\ key_at db idx = p) /\
    (found = false ->
       (forall j, 0 <= j < idx -> bytes_compare (key_at db j) p = Lt) /\
       (forall j, idx <= j < num db -> bytes_compare (key_at db j) p = Gt)).
Proof.
  intros db p Hb Hs.
  destruct (findIndex_full db p Hb Hs) as (idx & found & l & Hf & H1 & H2 & H3 & H4).
  exists idx, found, l. split; [exact Hf|]. split; [exact H1|].
  split; [split|split].
  - intros Ht. destruct (H3 Ht) as [Hlt Hk]. exists idx. split; [lia | exact Hk].
  - intros (j & Hj & Hk). destruct found; [reflexivity|exfalso].
    destruct (Z.lt_ge_cases j idx) as [Hji|Hji].
    + pose proof (H2 j ltac:(lia)) as C. rewrite Hk, bytes_compare_refl in C. discriminate.
    + pose proof (H4 eq_refl j ltac:(lia)) as C. rewrite Hk, bytes_compare_refl in C.
      discriminate.
  - exact H3.
  - intros Hf'. split; [exact H2 | exact (H4 Hf')].
Qed.

Lemma findIndex_result_witness :
  in_bounds scan_db /\ sorted_keys scan_db /\
  exists idx found l, findIndex scan_db (bs "a2") = Done (idx, found) l /\
    0 <= idx <= num scan_db /\
    (found = true <-> exists j, 0 <= j < num scan_db /\ key_at scan_db j = bs "a2") /\
    (found = true -> idx < num scan_db /\ key_at scan_db idx = bs "a2") /\
    (found = false ->
       (forall j, 0 <= j < idx -> bytes_compare (key_at scan_db j) (bs "a2") = Lt) /\
       (forall j, idx <= j < num scan_db -> bytes_compare (key_at scan_db j) (bs "a2") = Gt)).
Proof.
  split; [exact scan_db_in_bounds|]. split; [exact scan_db_sorted|].
  exact (findIndex_result scan_db (bs "a2") scan_db_in_bounds scan_db_sorted).
Defined.

(** The binary search of findIndex reads at most [log2(num) + 1] index
    entries (and does nothing else) on a reader whose index and entries are
    in bounds, sorted or not. *)
Theorem findIndex_reads_log : forall db p, in_bounds db ->
  exists r l, findIndex db p = Done r l /\
    Forall (fun e => exists i, e = ERead i) l /\
    Z.of_nat (length l) <= Z.log2 (num db) + 1.
Proof.
  intros db p Hb.
  destruct (findIndex_reads_log_aux db p Hb) as (r & l & Hf & Hn).
  exists r, l. split; [exact Hf|]. split; [|exact Hn].
  apply Forall_forall. intros e He.
  pose proof (findIndex_loop_reads_only db p (S (Z.to_nat (num db))) 0 (num db)) as R.
  unfold reads_only in R. unfold findIndex in Hf. rewrite Hf in R. exact (R e He).
Qed.

Lemma findIndex_reads_log_witness :
  in_bounds scan_db /\
  exists r l, findIndex scan_db (bs "b") = Done r l /\
    Forall (fun e => exists i, e = ERead i) l /\
    Z.of_nat (length l) <= Z.log2 (num scan_db) + 1.
Proof.
  split; [exact scan_db_in_bounds|].
  exact (findIndex_reads_log scan_db (bs "b") scan_db_in_bounds).
Defined.

(** GetRaw of a stored key on a well-formed sorted reader returns that
    entry's stored value slice, after reading at most [log2(num) + 2] index
    entries. *)
Theorem GetRaw_present : forall db i, in_bounds db -> sorted_keys db ->
  0 <= i < num db ->
  exists l, GetRaw db (key_at db i) = Done (Some (val_at db i)) l /\
    Z.of_nat (length l) <= Z.log2 (num db) + 2.
Proof.
  intros db i Hb Hs Hi.
  destruct (findIndex_full db (key_at db i) Hb Hs)
    as (idx & found & l & Hf & H1 & H2 & H3 & H4).
  destruct found.
  - destruct (H3 eq_refl) as [Hlt Hk].
    assert (idx = i) by (apply (sorted_key_inj db); auto; lia). subst idx.
    exists (l ++ [ERead i]). split; [apply GetRaw_found_ok; auto|].
    destruct (findIndex_reads_log_aux db (key_at db i) Hb) as (r & l' & Hf' & Hn).
    rewrite Hf in Hf'. injection Hf' as _ <-.
    rewrite length_app. simpl length. lia.
  - exfalso. destruct (Z.lt_ge_cases i idx) as [Hji|Hji].
    + pose proof (H2 i ltac:(lia)) as C. rewrite bytes_compare_refl in C. discriminate.
    + pose proof (H4 eq_refl i ltac:(lia)) as C. rewrite bytes_compare_refl in C.
      discriminate.
Qed.

Lemma GetRaw_present_witness :
  in_bounds scan_db /\ sorted_keys scan_db /\ 0 <= 2 < num scan_db /\
  exists l, GetRaw scan_db (key_at scan_db 2) = Done (Some (val_at scan_db 2)) l /\
    Z.of_nat (length l) <= Z.log2 (num scan_db) + 2.
Proof.
  assert (Hn : 0 <= 2 < num scan_db) by (vm_compute; split; congruence).
  split; [exact scan_db_in_bounds|]. split; [exact scan_db_sorted|]. split; [exact Hn|].
  exact (GetRaw_present scan_db 2 scan_db_in_bounds scan_db_sorted Hn).
Defined.

(** A key that no entry has: GetRaw reports it missing and Find returns
    [(nil, false, nil)], without panicking and whatever the decoders. *)
Theorem GetRaw_absent : forall s2d zd db key dst, in_bounds db -> sorted_keys db ->
  (forall j, 0 <= j < num db -> key_at db j <> key) ->
  exists l, GetRaw db key = Done None l /\
    Find s2d zd db key dst = Done ([], false, None) l.
Proof.
  intros s2d zd db key dst Hb Hs Hno.
  destruct (findIndex_full db key Hb Hs) as (idx & found & l & Hf & H1 & H2 & H3 & H4).
  destruct found.
  - exfalso. destruct (H3 eq_refl) as [Hlt Hk]. apply (Hno idx); [lia | exact Hk].
  - exists l. pose proof (GetRaw_notfound_ok db key idx l Hf) as Hg.
    split; [exact Hg|]. unfold Find. rewrite Hg. cbn [bind ret].
    now rewrite app_nil_r.
Qed.

Lemma GetRaw_absent_witness :
  in_bounds scan_db /\ sorted_keys scan_db /\
  (forall j, 0 <= j < num scan_db -> key_at scan_db j <> bs "a3") /\
  exists l, GetRaw scan_db (bs "a3") = Done None l /\
    Find failing_decoder failing_decoder scan_db (bs "a3") [] = Done ([], false, None) l.
Proof.
  assert (Hno : forall j, 0 <= j < num scan_db -> key_at scan_db j <> bs "a3").
  { intros j Hj. assert (Hn : num scan_db = 3) by (vm_compute; reflexivity).
    rewrite Hn in Hj. assert (Hc : j = 0 \/ j = 1 \/ j = 2) by lia.
    destruct Hc as [-> | [-> | ->]]; vm_compute; discriminate. }
  split; [exact scan_db_in_bounds|]. split; [exact scan_db_sorted|]. split; [exact Hno|].
  exact (GetRaw_absent failing_decoder failing_decoder scan_db (bs "a3") []
           scan_db_in_bounds scan_db_sorted Hno).
Defined.

(** A reader with no entries never touches its mapping, whatever its bytes:
    GetRaw and Find report every key missing and Prefix visits nothing. *)
Theorem empty_reader : forall CS (cb : CS -> bytes -> bytes -> bool * CS)
    s2d zd db key dst cs,
  num db = 0 ->
  GetRaw db key = Done None [] /\
  Find s2d zd db key dst = Done ([], false, None) [] /\
  Prefix cb db key cs = Done cs [].
Proof.
  intros CS cb s2d zd db key dst cs H0.
  assert (Hf : findIndex db key = Done (0, false) []).
  { unfold findIndex. rewrite H0. reflexivity. }
  assert (Hg : GetRaw db key = Done None []).
  { unfold GetRaw. rewrite Hf. reflexivity. }
  split; [exact Hg|]. split.
  - unfold Find. rewrite Hg. reflexivity.
  - unfold Prefix. rewrite Hf. cbn [bind]. rewrite H0. reflexivity.
Qed.

Definition empty_db : MMAPDB :=
  parse_db (BuildWithOptions id_s2 id_zstd [] default_opts).

Lemma empty_reader_witness :
  num empty_db = 0 /\
  GetRaw empty_db (bs "k") = Done None [] /\
  Find failing_decoder failing_decoder empty_db (bs "k") [] = Done ([], false, None) [] /\
  Prefix count_all empty_db (bs "k") 0%nat = Done 0%nat [].
Proof.
  assert (H0 : num empty_db = 0) by (vm_compute; reflexivity).
  split; [exact H0|].
  exact (empty_reader nat count_all failing_decoder failing_decoder empty_db
           (bs "k") [] 0%nat H0).
Defined.

(** Prefix with any callback on a well-formed sorted reader returns
    normally, and the pairs handed to the callback are an initial segment of
    the (key, value) slices of the matching entries in index order. *)
Theorem Prefix_any_callback : forall CS (cb : CS -> bytes -> bytes -> bool * CS) db p cs,
  in_bounds db -> sorted_keys db ->
  exists cs' l rest, Prefix cb db p cs = Done cs' l /\
    visits l ++ rest = map (fun j => (key_at db j, val_at db j))
                   (filter (fun j => HasPrefix (key_at db j) p)
                           (zseq 0 (Z.to_nat (num db)))).
Proof.
  intros CS cb db p cs Hb Hs.
  destruct (findIndex_spec db p Hb Hs) as (idx & found & l1 & Hf & Hidx & Hlt & Hge).
  assert (Hl1 : visits l1 = []).
  { change l1 with (log_of (@Done (Z * bool) (idx, found) l1)). rewrite <- Hf.
    apply reads_only_visits, findIndex_loop_reads_only. }
  unfold Prefix. rewrite Hf. cbn [bind].
  destruct (prefix_loop_any CS cb db p Hb Hs (Z.to_nat (num db - idx)) idx cs
              ltac:(lia) ltac:(lia) Hge) as (cs' & l2 & rest & Hl & Hv).
  rewrite Hl. exists cs', (l1 ++ l2), rest. split; [reflexivity|].
  rewrite visits_app, Hl1, (matches_from_insertion_point db p idx Hidx Hlt).
  exact Hv.
Qed.

Definition count_two (n : nat) (_ _ : bytes) : bool * nat := (Nat.eqb n 0, S n).

Lemma Prefix_any_callback_witness :
  in_bounds scan_db /\ sorted_keys scan_db /\
  exists cs' l rest, Prefix count_two scan_db [] 0%nat = Done cs' l /\
    visits l ++ rest = map (fun j => (key_at scan_db j, val_at scan_db j))
                   (filter (fun j => HasPrefix (key_at scan_db j) [])
                           (zseq 0 (Z.to_nat (num scan_db)))).
Proof.
  split; [exact scan_db_in_bounds|]. split; [exact scan_db_sorted|].
  exact (Prefix_any_callback nat count_two scan_db [] 0%nat
           scan_db_in_bounds scan_db_sorted).
Defined.

(** ** The file written by the builder, read back *)

(** *** Slices of concatenations and little-endian words *)

Lemma len_app : forall a b, len (a ++ b) = len a + len b.
Proof. intros. unfold len. rewrite length_app. lia. Qed.

Lemma len_nonneg : forall a, 0 <= len a.
Proof. intros. unfold len. lia. Qed.

Lemma len_le_put : forall n z, len (le_put n z) = Z.of_nat n.
Proof. intros. unfold len. now rewrite le_put_length. Qed.

Lemma sub_app_l : forall a b lo hi, 0 <= lo -> lo <= hi -> hi <= len a ->
  sub (a ++ b) lo hi = sub a lo hi.
Proof.
  intros a b lo hi H0 H1 H2. unfold sub, len in *.
  rewrite skipn_app, firstn_app, length_skipn.
  replace (Z.to_nat (hi - lo) - (length a - Z.to_nat lo))%nat with 0%nat by lia.
  now rewrite firstn_O, app_nil_r.
Qed.

Lemma sub_app_r : forall a b lo hi, len a <= lo ->
  sub (a ++ b) lo hi = sub b (lo - len a) (hi - len a).
Proof.
  intros a b lo hi H. unfold sub, len in *.
  rewrite skipn_app, (skipn_all2 a) by lia. simpl.
  f_equal; [lia|]. f_equal. lia.
Qed.

Lemma sub_all : forall a, sub a 0 (len a) = a.
Proof. intros. unfold sub, len. simpl. rewrite Z.sub_0_r, Nat2Z.id. apply firstn_all. Qed.

Lemma sub_mid : forall a b c lo hi, lo = len a -> hi = len a + len b ->
  sub (a ++ b ++ c) lo hi = b.
Proof.
  intros a b c lo hi -> ->. rewrite sub_app_r by lia.
  replace (len a - len a) with 0 by lia. replace (len a + len b - len a) with (len b) by lia.
  rewrite sub_app_l by (pose proof (len_nonneg b); lia). apply sub_all.
Qed.

Lemma sub_first : forall b c lo hi, lo = 0 -> hi = len b -> sub (b ++ c) lo hi = b.
Proof. intros b c lo hi H1 H2. exact (sub_mid [] b c lo hi H1 H2). Qed.

Lemma bval_byte_of_Z : forall z, bval (byte_of_Z z) = z mod 256.
Proof.
  intros z. unfold bval, byte_of_Z.
  pose proof (Z.mod_pos_bound z 256 ltac:(lia)) as Hb.
  destruct (Byte.of_N (Z.to_N (z mod 256))) as [b|] eqn:E.
  - apply Byte.to_of_N in E. rewrite E. apply Z2N.id. lia.
  - exfalso. pose proof (Byte.to_of_N_option_map (Z.to_N (z mod 256))) as H.
    rewrite E in H. simpl in H.
    destruct (Z.to_N (z mod 256) <=? 255)%N eqn:E2; [discriminate|].
    apply N.leb_gt in E2. lia.
Qed.

Lemma le_get_put : forall n z, 0 <= z < 256 ^ Z.of_nat n -> le_get (le_put n z) = z.
Proof.
  induction n as [|n IH]; intros z Hz.
  - simpl in Hz. simpl. lia.
  - change (le_get (le_put (S n) z)) with (bval (byte_of_Z z) + 256 * le_get (le_put n (z / 256))).
    rewrite bval_byte_of_Z, IH.
    + pose proof (Z.div_mod z 256 ltac:(lia)). lia.
    + rewrite Nat2Z.inj_succ, Z.pow_succ_r in Hz by lia. split.
      * apply Z.div_pos; lia.
      * apply Z.div_lt_upper_bound; lia.
Qed.

(** *** Index records *)

Definition entry_bytes (it : idx) : bytes :=
  le_put 8 (koff it) ++ le_put 4 (klen it) ++ le_put 8 (voff it) ++ le_put 4 (vlen it).

Lemma index_bytes_entries : forall ixs, index_bytes ixs = flat_map entry_bytes ixs.
Proof. reflexivity. Qed.

Lemma entry_bytes_len : forall it, len (entry_bytes it) = 24.
Proof. intros. unfold entry_bytes. rewrite !len_app, !len_le_put. reflexivity. Qed.

Lemma len_flat_map_entries : forall ixs,
  len (flat_map entry_bytes ixs) = 24 * Z.of_nat (length ixs).
Proof.
  induction ixs as [|it r IH]; [reflexivity|].
  change (flat_map entry_bytes (it :: r)) with (entry_bytes it ++ flat_map entry_bytes r).
  rewrite len_app, IH, entry_bytes_len. simpl length. lia.
Qed.

Lemma sub_entries : forall ixs rest i lo hi, (i < length ixs)%nat ->
  0 <= lo -> lo <= hi -> hi <= 24 ->
  sub (flat_map entry_bytes ixs ++ rest) (24 * Z.of_nat i + lo) (24 * Z.of_nat i + hi)
  = sub (entry_bytes (nth i ixs (mkIdx 0 0 0 0))) lo hi.
Proof.
  induction ixs as [|it r IH]; intros rest i lo hi Hi H0 H1 H2; [simpl in Hi; lia|].
  change (flat_map entry_bytes (it :: r)) with (entry_bytes it ++ flat_map entry_bytes r).
  rewrite <- app_assoc. destruct i as [|i].
  - simpl Z.of_nat. rewrite !Z.add_0_l.
    apply sub_app_l; [lia | lia | rewrite entry_bytes_len; lia].
  - rewrite sub_app_r by (rewrite entry_bytes_len; lia). rewrite entry_bytes_len.
    replace (24 * Z.of_nat (S i) + lo - 24) with (24 * Z.of_nat i + lo) by lia.
    replace (24 * Z.of_nat (S i) + hi - 24) with (24 * Z.of_nat i + hi) by lia.
    apply IH; simpl in Hi; lia.
Qed.

Lemma entry_bytes_fields : forall it,
  0 <= koff it < two64 -> 0 <= klen it < two32 ->
  0 <= voff it < two64 -> 0 <= vlen it < two32 ->
  le_get (sub (entry_bytes it) 0 8) = koff it /\
  le_get (sub (entry_bytes it) 8 12) = klen it /\
  le_get (sub (entry_bytes it) 12 20) = voff it /\
  le_get (sub (entry_bytes it) 20 24) = vlen it.
Proof.
  intros it H1 H2 H3 H4. unfold entry_bytes, two64, two32 in *.
  repeat split.
  - rewrite (sub_first (le_put 8 (koff it))) by (rewrite ?len_le_put; reflexivity).
    apply le_get_put. simpl. lia.
  - rewrite (sub_mid (le_put 8 (koff it)) (le_put 4 (klen it)))
      by (rewrite ?len_le_put; reflexivity).
    apply le_get_put. simpl. lia.
  - rewrite app_assoc.
    rewrite (sub_mid (le_put 8 (koff it) ++ le_put 4 (klen it)) (le_put 8 (voff it)))
      by (rewrite ?len_app, ?len_le_put; reflexivity).
    apply le_get_put. simpl. lia.
  - rewrite app_assoc, app_assoc, <- (app_nil_r (le_put 4 (vlen it))).
    rewrite (sub_mid ((le_put 8 (koff it) ++ le_put 4 (klen it)) ++ le_put 8 (voff it))
               (le_put 4 (vlen it)))
      by (rewrite ?len_app, ?len_le_put; reflexivity).
    apply le_get_put. simpl. lia.
Qed.

(** *** The blobs of the builder's loop *)

(** The value bytes [cv] a build writes, in order. *)
Definition written_values (s2e : bytes -> bytes) (ze : zlevel -> bytes -> bytes)
    (ws : list write_op) : list bytes :=
  flat_map (fun w => match w with WVal c => [run_call s2e ze c] | WKey _ => [] end) ws.

Definition built_values (s2e : bytes -> bytes) (ze : zlevel -> bytes -> bytes)
    (ents : list (bytes * value)) (opts : BuildOptions) : list bytes :=
  written_values s2e ze (build_writes s2e ze ents opts).

Definition dflt_ent : bytes * value := ([], VBytes []).

Lemma written_values_cons : forall s2e ze k c ws,
  written_values s2e ze (WKey k :: WVal c :: ws) = run_call s2e ze c :: written_values s2e ze ws.
Proof. reflexivity. Qed.

Lemma u32_small : forall z, 0 <= z < two32 -> u32 z = z.
Proof. intros z Hz. unfold u32. now apply Z.mod_small. Qed.

Lemma build_loop_layout : forall s2e ze opts ents zenc pos ixs ws blob pre post,
  build_loop s2e ze opts zenc pos ents = (ixs, ws, blob) ->
  len pre = pos ->
  Forall (fun e => len (fst e) < two32) ents ->
  Forall (fun cv => len cv < two32) (written_values s2e ze ws) ->
  length ixs = length ents /\ length (written_values s2e ze ws) = length ents /\
  len blob = len (concat (map fst ents)) + len (concat (written_values s2e ze ws)) /\
  forall i, (i < length ents)%nat ->
    let it := nth i ixs (mkIdx 0 0 0 0) in
    let m := pre ++ blob ++ post in
    0 <= koff it /\ klen it = len (fst (nth i ents dflt_ent)) /\
    0 <= voff it /\ vlen it = len (nth i (written_values s2e ze ws) []) /\
    koff it + klen it <= len m /\ voff it + vlen it <= len m /\
    sub m (koff it) (koff it + klen it) = fst (nth i ents dflt_ent) /\
    sub m (voff it) (voff it + vlen it) = nth i (written_values s2e ze ws) [].
Proof.
  intros s2e ze opts ents. induction ents as [|[k v] rest IH];
    intros zenc pos ixs ws blob pre post Hb Hpre Hk Hv.
  - simpl in Hb. injection Hb as <- <- <-.
    split; [reflexivity|]. split; [reflexivity|]. split; [reflexivity|].
    intros i Hi. simpl in Hi. lia.
  - cbn [build_loop] in Hb.
    destruct (choose_call opts zenc (coerce v)) as [c zenc'] eqn:Ec.
    set (cv := run_call s2e ze c) in *.
    destruct (build_loop s2e ze opts zenc' (pos + len k + len cv) rest)
      as [[ixs' ws'] blob'] eqn:Er.
    injection Hb as <- <- <-.
    rewrite written_values_cons in *. fold cv in Hv |- *.
    inversion Hk as [|e0 l0 Hk0 Hk1]; subst e0 l0. simpl fst in Hk0.
    inversion Hv as [|e0 l0 Hv0 Hv1]; subst e0 l0.
    destruct (IH zenc' (pos + len k + len cv) ixs' ws' blob' (pre ++ k ++ cv) post Er
                ltac:(rewrite !len_app; lia) Hk1 Hv1) as (H1 & H2 & H3 & H4).
    pose proof (len_nonneg k). pose proof (len_nonneg cv). pose proof (len_nonneg pre).
    pose proof (len_nonneg blob'). pose proof (len_nonneg post).
    split; [simpl; congruence|]. split; [simpl; congruence|].
    split.
    { cbn [map]. rewrite !concat_cons, !len_app, H3. simpl fst. lia. }
    intros i Hi. cbv zeta. destruct i as [|j].
    + cbn [nth koff klen voff vlen fst].
      rewrite !u32_small by (unfold two32 in *; lia).
      assert (Len : len (pre ++ (k ++ cv ++ blob') ++ post)
                    = len pre + len k + len cv + len blob' + len post)
        by (rewrite !len_app; lia).
      rewrite Len. repeat split; try lia.
      * rewrite <- !app_assoc. apply sub_mid; lia.
      * replace (pre ++ (k ++ cv ++ blob') ++ post) with ((pre ++ k) ++ cv ++ (blob' ++ post))
          by (rewrite <- !app_assoc; reflexivity).
        apply sub_mid; rewrite ?len_app; lia.
    + assert (Em : pre ++ (k ++ cv ++ blob') ++ post = (pre ++ k ++ cv) ++ blob' ++ post)
        by (rewrite <- !app_assoc; reflexivity).
      rewrite Em. simpl in Hi. exact (H4 j ltac:(lia)).
Qed.

Lemma build_loop_length : forall s2e ze opts ents zenc pos,
  length (fst (fst (build_loop s2e ze opts zenc pos ents))) = length ents.
Proof.
  intros s2e ze opts ents. induction ents as [|[k v] rest IH]; intros zenc pos;
    [reflexivity|].
  cbn [build_loop]. destruct (choose_call opts zenc (coerce v)) as [c zenc'].
  specialize (IH zenc' (pos + len k + len (run_call s2e ze c))).
  destruct (build_loop _ _ _ _ _ rest) as [[ixs ws] blob]. simpl in *. congruence.
Qed.

Lemma BuildWithOptions_shape : forall s2e ze ents opts,
  exists ixs blob,
    build_loop s2e ze opts (initial_zenc opts)
      (headerSize + Z.of_nat (length ents) * indexEntrySize) ents
    = (ixs, build_writes s2e ze ents opts, blob) /\
    BuildWithOptions s2e ze ents opts
    = header_bytes (Z.of_nat (length ents)) headerSize
        (headerSize + Z.of_nat (length ents) * indexEntrySize) (Compression opts)
      ++ flat_map entry_bytes ixs ++ blob.
Proof.
  intros. unfold BuildWithOptions, build_writes. cbv zeta.
  destruct (build_loop _ _ _ _ _ ents) as [[ixs ws] blob].
  exists ixs, blob. split; reflexivity.
Qed.

Lemma len_magic8 : len (firstn 8 FileMagic) = 8.
Proof. reflexivity. Qed.

Lemma len_header : forall n oi ob c, len (header_bytes n oi ob c) = 64.
Proof. intros. unfold len. now rewrite header_bytes_length. Qed.

Ltac header_field :=
  unfold header_bytes; rewrite <- !app_assoc;
  repeat (rewrite sub_app_r by (rewrite ?len_le_put, ?len_magic8; lia));
  rewrite sub_first by (rewrite ?len_le_put, ?len_magic8; lia);
  apply le_get_put; unfold two64, two32 in *; simpl; lia.

Lemma header_fields : forall n oi ob c rest,
  0 <= n < two64 -> 0 <= oi < two64 -> 0 <= ob < two64 -> 0 <= c < two32 ->
  le_get (sub (header_bytes n oi ob c ++ rest) 8 12) = FileVersion /\
  le_get (sub (header_bytes n oi ob c ++ rest) 16 24) = n /\
  le_get (sub (header_bytes n oi ob c ++ rest) 24 32) = oi /\
  le_get (sub (header_bytes n oi ob c ++ rest) 32 40) = ob /\
  le_get (sub (header_bytes n oi ob c ++ rest) 40 44) = 100 /\
  le_get (sub (header_bytes n oi ob c ++ rest) 44 48) = c.
Proof.
  intros n oi ob c rest Hn Hoi Hob Hc.
  repeat split; header_field.
Qed.

(** *** The reader over a built file *)

(** The reader that lines 83-104 of [Open] build from the bytes written by
    [BuildWithOptions]: its header fields, and its entries, which lie in
    bounds and hold the keys and written values in order.  The sizes must
    fit the format's fields: the file in [uint64] offsets, each key and each
    written value in a [uint32] length, the compression code in a
    [uint32]. *)
Lemma built_db_facts : forall s2e ze ents opts,
  len (BuildWithOptions s2e ze ents opts) < two64 ->
  Forall (fun e => len (fst e) < two32) ents ->
  Forall (fun cv => len cv < two32) (built_values s2e ze ents opts) ->
  0 <= Compression opts < two32 ->
  let db := parse_db (BuildWithOptions s2e ze ents opts) in
  num db = Z.of_nat (length ents) /\ indexBase db = headerSize /\
  compression db = Compression opts /\
  length (built_values s2e ze ents opts) = length ents /\
  len (BuildWithOptions s2e ze ents opts)
    = headerSize + Z.of_nat (length ents) * indexEntrySize
      + len (concat (map fst ents)) + len (concat (built_values s2e ze ents opts)) /\
  in_bounds db /\
  forall i, 0 <= i < num db ->
    key_at db i = fst (nth (Z.to_nat i) ents dflt_ent) /\
    val_at db i = nth (Z.to_nat i) (built_values s2e ze ents opts) [].
Proof.
  intros s2e ze ents opts HF Hk Hv Hc. cbv zeta.
  destruct (BuildWithOptions_shape s2e ze ents opts) as (ixs & blob & Hl & HB).
  set (F := BuildWithOptions s2e ze ents opts) in *.
  set (n := Z.of_nat (length ents)) in *.
  set (H0 := header_bytes n headerSize (headerSize + n * indexEntrySize) (Compression opts)) in *.
  pose proof (build_loop_length s2e ze opts ents (initial_zenc opts)
                (headerSize + n * indexEntrySize)) as Hlen.
  rewrite Hl in Hlen. simpl in Hlen.
  assert (Hpre : len (H0 ++ flat_map entry_bytes ixs) = headerSize + n * indexEntrySize).
  { rewrite len_app, len_flat_map_entries, Hlen. unfold H0. rewrite len_header.
    unfold headerSize, indexEntrySize, n. lia. }
  unfold built_values in *.
  destruct (build_loop_layout s2e ze opts ents (initial_zenc opts) _ ixs _ blob
              (H0 ++ flat_map entry_bytes ixs) [] Hl Hpre Hk Hv)
    as (_ & Hwl & Hblob & Hents).
  rewrite <- app_assoc, app_nil_r, <- HB in Hents.
  assert (HlenF : len F = headerSize + n * indexEntrySize + len blob)
    by (rewrite HB, app_assoc, len_app, Hpre; reflexivity).
  pose proof (len_nonneg blob) as Hbl.
  assert (Hn0 : 0 <= n) by (unfold n; lia).
  assert (Hfields := header_fields n headerSize (headerSize + n * indexEntrySize)
                       (Compression opts) (flat_map entry_bytes ixs ++ blob)).
  destruct Hfields as (_ & Hnum & Hoi & _ & _ & Hcomp);
    try (unfold headerSize, indexEntrySize in *; lia).
  fold H0 in Hnum, Hoi, Hcomp. rewrite <- HB in Hnum, Hoi, Hcomp.
  assert (Enum : num (parse_db F) = n) by exact Hnum.
  assert (Ebase : indexBase (parse_db F) = headerSize) by exact Hoi.
  assert (Ecomp : compression (parse_db F) = Compression opts) by exact Hcomp.
  assert (Hent : forall i, 0 <= i < n ->
            entry_at (parse_db F) i
            = (koff (nth (Z.to_nat i) ixs (mkIdx 0 0 0 0)),
               klen (nth (Z.to_nat i) ixs (mkIdx 0 0 0 0)),
               voff (nth (Z.to_nat i) ixs (mkIdx 0 0 0 0)),
               vlen (nth (Z.to_nat i) ixs (mkIdx 0 0 0 0)))).
  { intros i Hi. unfold entry_at. rewrite Ebase. change (mdata (parse_db F)) with F.
    destruct (Hents (Z.to_nat i) ltac:(unfold n in Hi; lia))
      as (E1 & E2 & E3 & E4 & E5 & E6 & _).
    set (it := nth (Z.to_nat i) ixs (mkIdx 0 0 0 0)) in *.
    pose proof (len_nonneg (fst (nth (Z.to_nat i) ents dflt_ent))).
    pose proof (len_nonneg (nth (Z.to_nat i) (written_values s2e ze
                                 (build_writes s2e ze ents opts)) [])).
    assert (Hb : 0 <= koff it < two64 /\ 0 <= klen it < two32 /\
                 0 <= voff it < two64 /\ 0 <= vlen it < two32).
    { rewrite E2, E4. rewrite Forall_forall in Hk, Hv.
      assert (Hk' : len (fst (nth (Z.to_nat i) ents dflt_ent)) < two32).
      { apply Hk, nth_In. unfold n in Hi. lia. }
      assert (Hv' : len (nth (Z.to_nat i) (written_values s2e ze
                            (build_writes s2e ze ents opts)) []) < two32).
      { apply Hv, nth_In. unfold n in Hi. lia. }
      rewrite E2 in E5. rewrite E4 in E6. lia. }
    destruct Hb as (B1 & B2 & B3 & B4).
    destruct (entry_bytes_fields it B1 B2 B3 B4) as (F1 & F2 & F3 & F4).
    rewrite HB.
    assert (Hsub : forall lo hi, 0 <= lo -> lo <= hi -> hi <= 24 ->
              sub (H0 ++ flat_map entry_bytes ixs ++ blob)
                  (headerSize + i * indexEntrySize + lo) (headerSize + i * indexEntrySize + hi)
              = sub (entry_bytes it) lo hi).
    { intros lo hi Hlo Hlh Hhi. rewrite sub_app_r by (unfold H0; rewrite len_header;
        unfold headerSize, indexEntrySize; lia).
      unfold H0. rewrite len_header.
      replace (headerSize + i * indexEntrySize + lo - 64) with (24 * Z.of_nat (Z.to_nat i) + lo)
        by (unfold headerSize, indexEntrySize; lia).
      replace (headerSize + i * indexEntrySize + hi - 64) with (24 * Z.of_nat (Z.to_nat i) + hi)
        by (unfold headerSize, indexEntrySize; lia).
      apply sub_entries; try lia. }
    rewrite (Hsub 8 12), (Hsub 12 20), (Hsub 20 24) by lia.
    replace (sub (H0 ++ flat_map entry_bytes ixs ++ blob) (headerSize + i * indexEntrySize)
               (headerSize + i * indexEntrySize + 8))
      with (sub (entry_bytes it) 0 8)
      by (rewrite <- (Hsub 0 8) by lia; rewrite Z.add_0_r; reflexivity).
    rewrite F1, F2, F3, F4. reflexivity. }
  split; [exact Enum|]. split; [exact Ebase|]. split; [exact Ecomp|].
  split; [exact Hwl|]. split.
  { rewrite HlenF, Hblob. lia. }
  split.
  - constructor.
    + exact HF.
    + rewrite Ebase. unfold headerSize. lia.
    + rewrite Enum. exact Hn0.
    + rewrite Ebase, Enum. change (mdata (parse_db F)) with F. lia.
    + intros i Hi. rewrite Enum in Hi. unfold entry_in_bounds. rewrite (Hent i Hi).
      change (mdata (parse_db F)) with F.
      destruct (Hents (Z.to_nat i) ltac:(unfold n in Hi; lia))
        as (_ & _ & _ & _ & E5 & E6 & _). split; assumption.
  - intros i Hi. rewrite Enum in Hi. unfold key_at, val_at. rewrite (Hent i Hi).
    change (mdata (parse_db F)) with F.
    destruct (Hents (Z.to_nat i) ltac:(unfold n in Hi; lia))
      as (_ & _ & _ & _ & _ & _ & E7 & E8). split; assumption.
Qed.

Lemma build_loop_blob_len : forall s2e ze opts ents zenc pos ixs ws blob,
  build_loop s2e ze opts zenc pos ents = (ixs, ws, blob) ->
  len blob = len (concat (map fst ents)) + len (concat (written_values s2e ze ws)).
Proof.
  intros s2e ze opts ents. induction ents as [|[k v] rest IH];
    intros zenc pos ixs ws blob Hb.
  - simpl in Hb. injection Hb as <- <- <-. reflexivity.
  - cbn [build_loop] in Hb.
    destruct (choose_call opts zenc (coerce v)) as [c zenc'].
    destruct (build_loop s2e ze opts zenc' (pos + len k + len (run_call s2e ze c)) rest)
      as [[ixs' ws'] blob'] eqn:Er.
    injection Hb as <- <- <-. rewrite written_values_cons. cbn [map].
    rewrite !concat_cons, !len_app, (IH _ _ _ _ _ Er). simpl fst. lia.
Qed.

Lemma StronglySorted_nth : forall A (R : A -> A -> Prop) l d i j,
  StronglySorted R l -> (i < j)%nat -> (j < length l)%nat -> R (nth i l d) (nth j l d).
Proof.
  intros A R l d. induction l as [|a l IH]; intros i j H Hij Hj; [simpl in Hj; lia|].
  inversion H as [|a0 l0 Hs Hf]; subst a0 l0.
  destruct i as [|i]; destruct j as [|j]; try lia; simpl.
  - rewrite Forall_forall in Hf. apply Hf, nth_In. simpl in Hj. lia.
  - apply IH; auto; simpl in Hj; lia.
Qed.

Lemma built_sorted : forall s2e ze ents opts,
  len (BuildWithOptions s2e ze ents opts) < two64 ->
  Forall (fun e => len (fst e) < two32) ents ->
  Forall (fun cv => len cv < two32) (built_values s2e ze ents opts) ->
  0 <= Compression opts < two32 ->
  StronglySorted (fun a b => bytes_compare a b = Lt) (map fst ents) ->
  sorted_keys (parse_db (BuildWithOptions s2e ze ents opts)).
Proof.
  intros s2e ze ents opts HF Hk Hv Hc Hs.
  destruct (built_db_facts s2e ze ents opts HF Hk Hv Hc)
    as (Hn & _ & _ & _ & _ & _ & Hkv).
  intros i j Hi Hij Hj.
  rewrite (proj1 (Hkv i ltac:(lia))), (proj1 (Hkv j ltac:(lia))).
  rewrite <- !(map_nth fst ents dflt_ent).
  apply (StronglySorted_nth _ (fun a b => bytes_compare a b = Lt)); auto; [lia|]. rewrite length_map. lia.
Qed.

(** *** Open *)

(** Open's outcome on every file system and path: the I/O error when the
    file cannot be opened, the mmap error for an empty file, the "too short"
    error for 1 to 63 bytes, and the bad-magic error otherwise; it never
    returns a reader. *)
Theorem Open_outcome : forall fs path,
  Open fs path = match fs path with
                 | None => OpenErr ErrIO
                 | Some [] => OpenErr ErrMmap
                 | Some m => if len m <? headerSize then OpenErr ErrTooShort
                             else OpenErr ErrBadMagic
                 end.
Proof.
  intros fs path. unfold Open. destruct (fs path) as [m|]; [|reflexivity].
  destruct m as [|x r]; [reflexivity|]. set (m := x :: r).
  unfold Open_mapped. destruct (len m <? headerSize); [reflexivity|].
  destruct (bytes_equal (firstn 8 m) FileMagic) eqn:E; [|reflexivity].
  exfalso. apply bytes_equal_length in E. rewrite magic_len, length_firstn in E. lia.
Qed.

(** *** The header and the layout of a built file *)

(** A built file starts with the first 8 bytes of [FileMagic], then version
    1, the entry count, the index offset 64, the blob offset
    [64 + 24 * count], the value format 100 and the compression option; its
    size is the header, one 24-byte index record per entry, and the keys and
    written values. *)
Theorem build_header_fields : forall s2e ze ents opts,
  len (BuildWithOptions s2e ze ents opts) < two64 -> 0 <= Compression opts < two32 ->
  let F := BuildWithOptions s2e ze ents opts in
  let h := hdr (parse_db F) in
  firstn 8 F = bs "QWICK202" /\ Version h = FileVersion /\
  NumEntries h = Z.of_nat (length ents) /\ OffIndex h = headerSize /\
  OffBlobs h = headerSize + Z.of_nat (length ents) * indexEntrySize /\
  ValueFmt h = 100 /\ hdrCompression h = Compression opts /\
  len F = headerSize + Z.of_nat (length ents) * indexEntrySize
          + len (concat (map fst ents)) + len (concat (built_values s2e ze ents opts)).
Proof.
  intros s2e ze ents opts HF Hc. cbv zeta.
  destruct (BuildWithOptions_shape s2e ze ents opts) as (ixs & blob & Hl & HB).
  pose proof (build_loop_length s2e ze opts ents (initial_zenc opts)
                (headerSize + Z.of_nat (length ents) * indexEntrySize)) as Hlen.
  rewrite Hl in Hlen. simpl in Hlen.
  pose proof (build_loop_blob_len _ _ _ _ _ _ _ _ _ Hl) as Hbl.
  set (n := Z.of_nat (length ents)) in *.
  assert (HlenF : len (BuildWithOptions s2e ze ents opts)
                  = headerSize + n * indexEntrySize + len blob).
  { rewrite HB, !len_app, len_header, len_flat_map_entries, Hlen.
    unfold headerSize, indexEntrySize, n. lia. }
  pose proof (len_nonneg blob).
  assert (Hn0 : 0 <= n) by (unfold n; lia).
  destruct (header_fields n headerSize (headerSize + n * indexEntrySize)
              (Compression opts) (flat_map entry_bytes ixs ++ blob))
    as (V & N & OI & OB & VF & C); try (unfold headerSize, indexEntrySize in *; lia).
  rewrite <- HB in V, N, OI, OB, VF, C.
  split; [rewrite HB; apply firstn8_header_app|].
  split; [exact V|]. split; [exact N|]. split; [exact OI|]. split; [exact OB|].
  split; [exact VF|]. split; [exact C|].
  rewrite HlenF, Hbl. unfold built_values. lia.
Qed.

Lemma build_header_fields_witness :
  len (BuildWithOptions id_s2 id_zstd [(bs "k", VString "v")] (mkOpts 2 1 0)) < two64 /\
  0 <= Compression (mkOpts 2 1 0) < two32 /\
  let F := BuildWithOptions id_s2 id_zstd [(bs "k", VString "v")] (mkOpts 2 1 0) in
  let h := hdr (parse_db F) in
  firstn 8 F = bs "QWICK202" /\ Version h = FileVersion /\
  NumEntries h = Z.of_nat (length [(bs "k", VString "v")]) /\ OffIndex h = headerSize /\
  OffBlobs h = headerSize + Z.of_nat (length [(bs "k", VString "v")]) * indexEntrySize /\
  ValueFmt h = 100 /\ hdrCompression h = Compression (mkOpts 2 1 0) /\
  len F = headerSize + Z.of_nat (length [(bs "k", VString "v")]) * indexEntrySize
          + len (concat (map fst [(bs "k", VString "v")]))
          + len (concat (built_values id_s2 id_zstd [(bs "k", VString "v")] (mkOpts 2 1 0))).
Proof.
  assert (H1 : len (BuildWithOptions id_s2 id_zstd [(bs "k", VString "v")] (mkOpts 2 1 0))
               < two64) by (vm_compute; reflexivity).
  assert (H2 : 0 <= Compression (mkOpts 2 1 0) < two32) by (vm_compute; split; congruence).
  split; [exact H1|]. split; [exact H2|].
  exact (build_header_fields id_s2 id_zstd [(bs "k", VString "v")] (mkOpts 2 1 0) H1 H2).
Defined.

(** *** Reading a built file back *)

(** On the reader built from a file written by [BuildWithOptions] (sizes
    fitting the format's fields), every index and blob range lies in the
    mapping, and entry [i] holds the [i]-th key of the builder's input and
    the [i]-th value it wrote: getKeySlice and getValSlice return them after
    reading that one index entry. *)
Theorem build_read_back : forall s2e ze ents opts,
  len (BuildWithOptions s2e ze ents opts) < two64 ->
  Forall (fun e => len (fst e) < two32) ents ->
  Forall (fun cv => len cv < two32) (built_values s2e ze ents opts) ->
  0 <= Compression opts < two32 ->
  let db := parse_db (BuildWithOptions s2e ze ents opts) in
  in_bounds db /\ num db = Z.of_nat (length ents) /\
  compression db = Compression opts /\
  forall i, 0 <= i < num db ->
    getKeySlice db i = Done (fst (nth (Z.to_nat i) ents dflt_ent)) [ERead i] /\
    getValSlice db i = Done (nth (Z.to_nat i) (built_values s2e ze ents opts) []) [ERead i].
Proof.
  intros s2e ze ents opts HF Hk Hv Hc. cbv zeta.
  destruct (built_db_facts s2e ze ents opts HF Hk Hv Hc)
    as (Hn & _ & Hcomp & _ & _ & Hb & Hkv).
  split; [exact Hb|]. split; [exact Hn|]. split; [exact Hcomp|].
  intros i Hi. destruct (Hkv i Hi) as [Ek Ev].
  rewrite getKeySlice_ok, getValSlice_ok, Ek, Ev by auto. split; reflexivity.
Qed.

Definition three_ents : list (bytes * value) :=
  [(bs "a1", VBytes (bs "v1")); (bs "a2", VString "v2"); (bs "b1", VOther (bs "3"))].

Definition s2_opts : BuildOptions := mkOpts 2 1 0.

Lemma three_ents_fit :
  len (BuildWithOptions id_s2 id_zstd three_ents s2_opts) < two64 /\
  Forall (fun e => len (fst e) < two32) three_ents /\
  Forall (fun cv => len cv < two32) (built_values id_s2 id_zstd three_ents s2_opts) /\
  0 <= Compression s2_opts < two32 /\
  StronglySorted (fun a b => bytes_compare a b = Lt) (map fst three_ents).
Proof.
  split; [vm_compute; reflexivity|]. split; [repeat constructor|].
  split.
  { assert (E : built_values id_s2 id_zstd three_ents s2_opts = [bs "v1"; bs "v2"; bs "3"])
      by (vm_compute; reflexivity).
    rewrite E. repeat constructor. }
  split; [vm_compute; split; congruence|].
  repeat constructor.
Qed.

Lemma build_read_back_witness :
  len (BuildWithOptions id_s2 id_zstd three_ents s2_opts) < two64 /\
  Forall (fun e => len (fst e) < two32) three_ents /\
  Forall (fun cv => len cv < two32) (built_values id_s2 id_zstd three_ents s2_opts) /\
  0 <= Compression s2_opts < two32 /\
  let db := parse_db (BuildWithOptions id_s2 id_zstd three_ents s2_opts) in
  in_bounds db /\ num db = Z.of_nat (length three_ents) /\
  compression db = Compression s2_opts /\
  forall i, 0 <= i < num db ->
    getKeySlice db i = Done (fst (nth (Z.to_nat i) three_ents dflt_ent)) [ERead i] /\
    getValSlice db i
    = Done (nth (Z.to_nat i) (built_values id_s2 id_zstd three_ents s2_opts) []) [ERead i].
Proof.
  destruct three_ents_fit as (H1 & H2 & H3 & H4 & _).
  split; [exact H1|]. split; [exact H2|]. split; [exact H3|]. split; [exact H4|].
  exact (build_read_back id_s2 id_zstd three_ents s2_opts H1 H2 H3 H4).
Defined.

(** *** Encoders of a build with a fixed compression option *)

(** Lines 302-314 once [compToUse = compression <> 0]: the encoder call for
    one value. *)
Definition fixed_call (opts : BuildOptions) (vb : bytes) : codec_call :=
  if Compression opts =? compZstd then
    CallZstd (if ZstdLevel opts =? 2 then SpeedDefault
              else if ZstdLevel opts =? 3 then SpeedBetterCompression
              else SpeedFastest) vb
  else if Compression opts =? compS2 then CallS2 vb
  else NoCall vb.

Definition fixed_ops (opts : BuildOptions) (e : bytes * value) : list write_op :=
  let '(k, v) := e in [WKey k; WVal (fixed_call opts (coerce v))].

Lemma build_loop_fixed : forall s2e ze opts ents pos,
  Compression opts <> 0 ->
  snd (fst (build_loop s2e ze opts (initial_zenc opts) pos ents))
  = flat_map (fixed_ops opts) ents.
Proof.
  intros s2e ze opts ents. induction ents as [|[k v] rest IH]; intros pos Hc;
    [reflexivity|].
  cbn [build_loop].
  assert (Hch : choose_call opts (initial_zenc opts) (coerce v)
                = (fixed_call opts (coerce v), initial_zenc opts)).
  { unfold choose_call, fixed_call, initial_zenc.
    rewrite (proj2 (Z.eqb_neq _ _) Hc). cbn [andb].
    destruct (Compression opts =? compZstd); [reflexivity|].
    destruct (Compression opts =? compS2); reflexivity. }
  rewrite Hch.
  specialize (IH (pos + len k + len (run_call s2e ze (fixed_call opts (coerce v)))) Hc).
  destruct (build_loop _ _ _ _ _ rest) as [[ixs ws] blob]. simpl in *.
  now rewrite IH.
Qed.

(** With a compression option other than auto ([Compression <> 0]) the size
    cutover is ignored and every value goes through the same encoder: zstd
    at the level chosen by [ZstdLevel] (2: default, 3: better compression,
    anything else: fastest) for 1, s2 for 2, none for any other code. *)
Theorem build_fixed_encoders : forall s2e ze ents opts,
  Compression opts <> 0 ->
  build_writes s2e ze ents opts = flat_map (fixed_ops opts) ents.
Proof.
  intros s2e ze ents opts Hc. rewrite build_writes_loop. now apply build_loop_fixed.
Qed.

Lemma build_fixed_encoders_witness :
  Compression (mkOpts 1 3 5) <> 0 /\
  build_writes id_s2 id_zstd [(bs "k", VBytes (bs "abcdefgh"))] (mkOpts 1 3 5)
  = flat_map (fixed_ops (mkOpts 1 3 5)) [(bs "k", VBytes (bs "abcdefgh"))].
Proof.
  assert (Hc : Compression (mkOpts 1 3 5) <> 0) by discriminate.
  split; [exact Hc|].
  exact (build_fixed_encoders id_s2 id_zstd [(bs "k", VBytes (bs "abcdefgh"))]
           (mkOpts 1 3 5) Hc).
Defined.

Lemma written_values_fixed : forall s2e ze opts ents,
  written_values s2e ze (flat_map (fixed_ops opts) ents)
  = map (fun e => run_call s2e ze (fixed_call opts (coerce (snd e)))) ents.
Proof.
  intros s2e ze opts ents. induction ents as [|[k v] rest IH]; [reflexivity|].
  change (flat_map (fixed_ops opts) ((k, v) :: rest))
    with (WKey k :: WVal (fixed_call opts (coerce v)) :: flat_map (fixed_ops opts) rest).
  rewrite written_values_cons, IH. reflexivity.
Qed.

(** *** Lookups on a built file *)

Lemma GetRaw_hit : forall db i, in_bounds db -> sorted_keys db -> 0 <= i < num db ->
  exists l, GetRaw db (key_at db i) = Done (Some (val_at db i)) l.
Proof.
  intros db i Hb Hs Hi.
  destruct (findIndex_full db (key_at db i) Hb Hs)
    as (idx & found & l & Hf & H1 & H2 & H3 & H4).
  destruct found.
  - destruct (H3 eq_refl) as [Hlt Hk].
    assert (idx = i) by (apply (sorted_key_inj db); auto; lia). subst idx.
    exists (l ++ [ERead i]). apply GetRaw_found_ok; auto.
  - exfalso. destruct (Z.lt_ge_cases i idx) as [Hji|Hji].
    + pose proof (H2 i ltac:(lia)) as C. rewrite bytes_compare_refl in C. discriminate.
    + pose proof (H4 eq_refl i ltac:(lia)) as C. rewrite bytes_compare_refl in C.
      discriminate.
Qed.

Lemma GetRaw_miss : forall db key, in_bounds db -> sorted_keys db ->
  (forall j, 0 <= j < num db -> key_at db j <> key) ->
  exists l, GetRaw db key = Done None l.
Proof.
  intros db key Hb Hs Hno.
  destruct (findIndex_full db key Hb Hs) as (idx & found & l & Hf & H1 & H2 & H3 & H4).
  destruct found.
  - exfalso. destruct (H3 eq_refl) as [Hlt Hk]. apply (Hno idx); [lia | exact Hk].
  - exists l. exact (GetRaw_notfound_ok db key idx l Hf).
Qed.

Lemma built_key_value : forall s2e ze ents opts,
  len (BuildWithOptions s2e ze ents opts) < two64 ->
  Forall (fun e => len (fst e) < two32) ents ->
  Forall (fun cv => len cv < two32) (built_values s2e ze ents opts) ->
  0 <= Compression opts < two32 ->
  StronglySorted (fun a b => bytes_compare a b = Lt) (map fst ents) ->
  forall i, (i < length ents)%nat ->
  exists l, GetRaw (parse_db (BuildWithOptions s2e ze ents opts)) (fst (nth i ents dflt_ent))
            = Done (Some (nth i (built_values s2e ze ents opts) [])) l.
Proof.
  intros s2e ze ents opts HF Hk Hv Hc Hs i Hi.
  destruct (built_db_facts s2e ze ents opts HF Hk Hv Hc)
    as (Hn & _ & _ & _ & _ & Hb & Hkv).
  pose proof (built_sorted s2e ze ents opts HF Hk Hv Hc Hs) as Hsk.
  destruct (Hkv (Z.of_nat i) ltac:(lia)) as [Ek Ev]. rewrite Nat2Z.id in Ek, Ev.
  rewrite <- Ek, <- Ev. apply GetRaw_hit; auto. lia.
Qed.

(** GetRaw on the reader of a built file whose keys are strictly ascending
    (the order in which the radix tree hands them out): each stored key
    yields the value bytes the builder wrote for it, and any other key is
    reported missing. *)
Theorem build_GetRaw : forall s2e ze ents opts,
  len (BuildWithOptions s2e ze ents opts) < two64 ->
  Forall (fun e => len (fst e) < two32) ents ->
  Forall (fun cv => len cv < two32) (built_values s2e ze ents opts) ->
  0 <= Compression opts < two32 ->
  StronglySorted (fun a b => bytes_compare a b = Lt) (map fst ents) ->
  let db := parse_db (BuildWithOptions s2e ze ents opts) in
  (forall i, (i < length ents)%nat ->
     exists l, GetRaw db (fst (nth i ents dflt_ent))
               = Done (Some (nth i (built_values s2e ze ents opts) [])) l) /\
  (forall key, ~ In key (map fst ents) -> exists l, GetRaw db key = Done None l).
Proof.
  intros s2e ze ents opts HF Hk Hv Hc Hs. cbv zeta. split.
  - exact (built_key_value s2e ze ents opts HF Hk Hv Hc Hs).
  - intros key Hnot.
    destruct (built_db_facts s2e ze ents opts HF Hk Hv Hc)
      as (Hn & _ & _ & _ & _ & Hb & Hkv).
    apply GetRaw_miss; [exact Hb | exact (built_sorted s2e ze ents opts HF Hk Hv Hc Hs)|].
    intros j Hj E. apply Hnot. rewrite <- E, (proj1 (Hkv j Hj)).
    rewrite <- (map_nth fst ents dflt_ent). apply nth_In. rewrite length_map. lia.
Qed.

Lemma build_GetRaw_witness :
  len (BuildWithOptions id_s2 id_zstd three_ents s2_opts) < two64 /\
  Forall (fun e => len (fst e) < two32) three_ents /\
  Forall (fun cv => len cv < two32) (built_values id_s2 id_zstd three_ents s2_opts) /\
  0 <= Compression s2_opts < two32 /\
  StronglySorted (fun a b => bytes_compare a b = Lt) (map fst three_ents) /\
  let db := parse_db (BuildWithOptions id_s2 id_zstd three_ents s2_opts) in
  (forall i, (i < length three_ents)%nat ->
     exists l, GetRaw db (fst (nth i three_ents dflt_ent))
               = Done (Some (nth i (built_values id_s2 id_zstd three_ents s2_opts) [])) l) /\
  (forall key, ~ In key (map fst three_ents) -> exists l, GetRaw db key = Done None l).
Proof.
  destruct three_ents_fit as (H1 & H2 & H3 & H4 & H5).
  split; [exact H1|]. split; [exact H2|]. split; [exact H3|]. split; [exact H4|].
  split; [exact H5|].
  exact (build_GetRaw id_s2 id_zstd three_ents s2_opts H1 H2 H3 H4 H5).
Defined.

Lemma nth_map_ents : forall (f : bytes * value -> bytes) ents i,
  (i < length ents)%nat -> nth i (map f ents) [] = f (nth i ents dflt_ent).
Proof.
  intros f ents i Hi. rewrite (nth_indep (map f ents) [] (f dflt_ent))
    by (rewrite length_map; exact Hi).
  apply map_nth.
Qed.

Lemma built_values_fixed_nth : forall s2e ze ents opts i,
  Compression opts <> 0 -> (i < length ents)%nat ->
  nth i (built_values s2e ze ents opts) []
  = run_call s2e ze (fixed_call opts (coerce (snd (nth i ents dflt_ent)))).
Proof.
  intros s2e ze ents opts i Hc Hi. unfold built_values.
  rewrite build_writes_loop, build_loop_fixed by exact Hc.
  rewrite written_values_fixed. now apply nth_map_ents.
Qed.

(** Find on a file built with a fixed compression option ([Compression <> 0])
    and strictly ascending keys gives back, for every stored key, the value
    bytes handed to the builder, found and without error, provided each
    decoder inverts its encoder (s2 for option 2, zstd at every level for
    option 1; any other code stores the bytes as they are). *)
Theorem build_Find_roundtrip : forall s2e ze s2d zd ents opts dst,
  len (BuildWithOptions s2e ze ents opts) < two64 ->
  Forall (fun e => len (fst e) < two32) ents ->
  Forall (fun cv => len cv < two32) (built_values s2e ze ents opts) ->
  0 <= Compression opts < two32 ->
  Compression opts <> 0 ->
  StronglySorted (fun a b => bytes_compare a b = Lt) (map fst ents) ->
  (forall b, s2d [] (s2e b) = (b, None)) ->
  (forall lvl b, zd (ze lvl b) [] = (b, None)) ->
  forall i, (i < length ents)%nat ->
  exists l, Find s2d zd (parse_db (BuildWithOptions s2e ze ents opts))
              (fst (nth i ents dflt_ent)) dst
            = Done (coerce (snd (nth i ents dflt_ent)), true, None) l.
Proof.
  intros s2e ze s2d zd ents opts dst HF Hk Hv Hc Hc0 Hs Hs2 Hz i Hi.
  destruct (built_key_value s2e ze ents opts HF Hk Hv Hc Hs i Hi) as [l Hg].
  destruct (built_db_facts s2e ze ents opts HF Hk Hv Hc)
    as (_ & _ & Hcomp & _).
  rewrite (built_values_fixed_nth s2e ze ents opts i Hc0 Hi) in Hg.
  unfold Find. rewrite Hg. cbn [bind]. rewrite Hcomp. unfold fixed_call.
  cbn [firstn].
  destruct (Compression opts =? compZstd) eqn:E1.
  - cbn [run_call]. rewrite Hz. eexists; reflexivity.
  - destruct (Compression opts =? compS2) eqn:E2.
    + cbn [run_call]. rewrite Hs2. eexists; reflexivity.
    + rewrite (proj2 (Z.eqb_neq _ _) Hc0). cbn [run_call]. eexists; reflexivity.
Qed.

Definition echo_s2_Decode (dst src : bytes) : bytes * option go_error := (src, None).
Definition echo_zstd_DecodeAll (src dst : bytes) : bytes * option go_error := (src, None).

Lemma build_Find_roundtrip_witness :
  len (BuildWithOptions id_s2 id_zstd three_ents s2_opts) < two64 /\
  Forall (fun e => len (fst e) < two32) three_ents /\
  Forall (fun cv => len cv < two32) (built_values id_s2 id_zstd three_ents s2_opts) /\
  0 <= Compression s2_opts < two32 /\
  Compression s2_opts <> 0 /\
  StronglySorted (fun a b => bytes_compare a b = Lt) (map fst three_ents) /\
  (forall b, echo_s2_Decode [] (id_s2 b) = (b, None)) /\
  (forall lvl b, echo_zstd_DecodeAll (id_zstd lvl b) [] = (b, None)) /\
  forall i, (i < length three_ents)%nat ->
  exists l, Find echo_s2_Decode echo_zstd_DecodeAll
              (parse_db (BuildWithOptions id_s2 id_zstd three_ents s2_opts))
              (fst (nth i three_ents dflt_ent)) (bs "buf")
            = Done (coerce (snd (nth i three_ents dflt_ent)), true, None) l.
Proof.
  destruct three_ents_fit as (H1 & H2 & H3 & H4 & H5).
  assert (H6 : Compression s2_opts <> 0) by discriminate.
  assert (H7 : forall b, echo_s2_Decode [] (id_s2 b) = (b, None)) by reflexivity.
  assert (H8 : forall lvl b, echo_zstd_DecodeAll (id_zstd lvl b) [] = (b, None))
    by reflexivity.
  split; [exact H1|]. split; [exact H2|]. split; [exact H3|]. split; [exact H4|].
  split; [exact H6|]. split; [exact H5|]. split; [exact H7|]. split; [exact H8|].
  exact (build_Find_roundtrip id_s2 id_zstd echo_s2_Decode echo_zstd_DecodeAll
           three_ents s2_opts (bs "buf") H1 H2 H3 H4 H6 H5 H7 H8).
Defined.

(** *** Build: the default options *)

(** Lines 349-351: [Build] is [BuildWithOptions] with compression auto, zstd
    level 1 and a size cutover of 256 bytes. *)
Definition Build (s2e : bytes -> bytes) (ze : zlevel -> bytes -> bytes)
    (ents : list (bytes * value)) : bytes :=
  BuildWithOptions s2e ze ents (mkOpts 0 1 256).

Lemma written_values_auto : forall s2e ze c ents,
  written_values s2e ze (flat_map (auto_ops c) ents)
  = map (fun e => run_call s2e ze
                    (if len (coerce (snd e)) <=? c then CallS2 (coerce (snd e))
                     else CallZstd SpeedFastest (coerce (snd e)))) ents.
Proof.
  intros s2e ze c ents. induction ents as [|[k v] rest IH]; [reflexivity|].
  change (flat_map (auto_ops c) ((k, v) :: rest))
    with (auto_ops c (k, v) ++ flat_map (auto_ops c) rest).
  unfold auto_ops at 1. cbn [app]. rewrite written_values_cons, IH. reflexivity.
Qed.

Lemma built_values_auto_nth : forall s2e ze ents opts i,
  Compression opts = 0 -> 0 < SizeCutover opts -> (i < length ents)%nat ->
  nth i (built_values s2e ze ents opts) []
  = run_call s2e ze
      (if len (coerce (snd (nth i ents dflt_ent))) <=? SizeCutover opts
       then CallS2 (coerce (snd (nth i ents dflt_ent)))
       else CallZstd SpeedFastest (coerce (snd (nth i ents dflt_ent)))).
Proof.
  intros s2e ze ents opts i Hc Hcut Hi. unfold built_values.
  rewrite build_writes_loop, build_loop_auto; auto.
  - rewrite written_values_auto. now apply nth_map_ents.
  - left. unfold initial_zenc. now rewrite Hc.
Qed.

(** Find on a file made by [Build] with strictly ascending keys gives back,
    for every stored key, the value bytes handed to the builder, found and
    without error, provided s2 decodes what s2 encoded (values of at most
    256 bytes), and for longer values, zstd at its fastest level decodes
    what it encoded while s2 rejects it: the reader tries s2 first. *)
Theorem Build_Find_roundtrip : forall s2e ze s2d zd ents dst,
  len (Build s2e ze ents) < two64 ->
  Forall (fun e => len (fst e) < two32) ents ->
  Forall (fun cv => len cv < two32) (built_values s2e ze ents (mkOpts 0 1 256)) ->
  StronglySorted (fun a b => bytes_compare a b = Lt) (map fst ents) ->
  (forall b, len b <= 256 -> s2d [] (s2e b) = (b, None)) ->
  (forall b, 256 < len b -> zd (ze SpeedFastest b) [] = (b, None)) ->
  (forall b, 256 < len b -> exists out e, s2d [] (ze SpeedFastest b) = (out, Some e)) ->
  forall i, (i < length ents)%nat ->
  exists l, Find s2d zd (parse_db (Build s2e ze ents)) (fst (nth i ents dflt_ent)) dst
            = Done (coerce (snd (nth i ents dflt_ent)), true, None) l.
Proof.
  intros s2e ze s2d zd ents dst HF Hk Hv Hs Hs2 Hz Hrej i Hi.
  unfold Build in *.
  assert (Hc : 0 <= Compression (mkOpts 0 1 256) < two32)
    by (cbn [Compression]; unfold two32; lia).
  destruct (built_key_value s2e ze ents _ HF Hk Hv Hc Hs i Hi) as [l Hg].
  destruct (built_db_facts s2e ze ents _ HF Hk Hv Hc) as (_ & _ & Hcomp & _).
  rewrite (built_values_auto_nth s2e ze ents (mkOpts 0 1 256) i eq_refl ltac:(cbn; lia) Hi) in Hg.
  cbn [SizeCutover Compression] in Hg, Hcomp.
  unfold Find. rewrite Hg. cbn [bind]. rewrite Hcomp. cbn [firstn].
  unfold compZstd, compS2. cbn [Z.eqb].
  set (vb := coerce (snd (nth i ents dflt_ent))).
  destruct (len vb <=? 256) eqn:Hle.
  - apply Z.leb_le in Hle. cbn [run_call]. rewrite (Hs2 vb Hle). eexists; reflexivity.
  - apply Z.leb_gt in Hle. cbn [run_call].
    destruct (Hrej vb Hle) as (out & e & He). rewrite He, (Hz vb Hle).
    eexists; reflexivity.
Qed.

(** Stand-in codecs that tag their output, so that each decoder rejects the
    other encoder's frames. *)
Definition tag_s2_Encode (b : bytes) : bytes := x01 :: b.
Definition tag_zstd_EncodeAll (_ : zlevel) (b : bytes) : bytes := x02 :: b.
Definition tag_s2_Decode (dst src : bytes) : bytes * option go_error :=
  match src with
  | x01 :: r => (r, None)
  | _ => ([], Some (GoError "s2: corrupt input"))
  end.
Definition tag_zstd_DecodeAll (src dst : bytes) : bytes * option go_error :=
  match src with
  | x02 :: r => (r, None)
  | _ => ([], Some (GoError "zstd: invalid input"))
  end.

Definition big_ents : list (bytes * value) :=
  [(bs "a", VBytes (repeat x41 300)); (bs "b", VString "v")].

Lemma Build_Find_roundtrip_witness :
  len (Build tag_s2_Encode tag_zstd_EncodeAll big_ents) < two64 /\
  Forall (fun e => len (fst e) < two32) big_ents /\
  Forall (fun cv => len cv < two32)
    (built_values tag_s2_Encode tag_zstd_EncodeAll big_ents (mkOpts 0 1 256)) /\
  StronglySorted (fun a b => bytes_compare a b = Lt) (map fst big_ents) /\
  (forall b, len b <= 256 -> tag_s2_Decode [] (tag_s2_Encode b) = (b, None)) /\
  (forall b, 256 < len b ->
     tag_zstd_DecodeAll (tag_zstd_EncodeAll SpeedFastest b) [] = (b, None)) /\
  (forall b, 256 < len b -> exists out e,
     tag_s2_Decode [] (tag_zstd_EncodeAll SpeedFastest b) = (out, Some e)) /\
  forall i, (i < length big_ents)%nat ->
  exists l, Find tag_s2_Decode tag_zstd_DecodeAll
              (parse_db (Build tag_s2_Encode tag_zstd_EncodeAll big_ents))
              (fst (nth i big_ents dflt_ent)) (bs "buf")
            = Done (coerce (snd (nth i big_ents dflt_ent)), true, None) l.
Proof.
  assert (H1 : len (Build tag_s2_Encode tag_zstd_EncodeAll big_ents) < two64)
    by (vm_compute; reflexivity).
  assert (H2 : Forall (fun e => len (fst e) < two32) big_ents)
    by (repeat (constructor; [vm_compute; reflexivity|]); constructor).
  assert (H3 : Forall (fun cv => len cv < two32)
                 (built_values tag_s2_Encode tag_zstd_EncodeAll big_ents (mkOpts 0 1 256))).
  { assert (E : built_values tag_s2_Encode tag_zstd_EncodeAll big_ents (mkOpts 0 1 256)
                = [x02 :: repeat x41 300; x01 :: bs "v"]) by (vm_compute; reflexivity).
    rewrite E. repeat (constructor; [vm_compute; reflexivity|]); constructor. }
  assert (H4 : StronglySorted (fun a b => bytes_compare a b = Lt) (map fst big_ents))
    by (repeat constructor).
  assert (H5 : forall b, len b <= 256 -> tag_s2_Decode [] (tag_s2_Encode b) = (b, None))
    by reflexivity.
  assert (H6 : forall b, 256 < len b ->
            tag_zstd_DecodeAll (tag_zstd_EncodeAll SpeedFastest b) [] = (b, None))
    by reflexivity.
  assert (H7 : forall b, 256 < len b -> exists out e,
            tag_s2_Decode [] (tag_zstd_EncodeAll SpeedFastest b) = (out, Some e))
    by (intros; do 2 eexists; reflexivity).
  split; [exact H1|]. split; [exact H2|]. split; [exact H3|]. split; [exact H4|].
  split; [exact H5|]. split; [exact H6|]. split; [exact H7|].
  exact (Build_Find_roundtrip tag_s2_Encode tag_zstd_EncodeAll tag_s2_Decode
           tag_zstd_DecodeAll big_ents (bs "buf") H1 H2 H3 H4 H5 H6 H7).
Defined.

(** *** Prefix scans of a built file *)

Lemma Prefix_all_cont : forall CS (cb : CS -> bytes -> bytes -> bool * CS) db p cs,
  in_bounds db -> sorted_keys db -> (forall s k v, fst (cb s k v) = true) ->
  exists cs' l, Prefix cb db p cs = Done cs' l /\
    visits l = map (fun j => (key_at db j, val_at db j))
                   (filter (fun j => HasPrefix (key_at db j) p)
                           (zseq 0 (Z.to_nat (num db)))).
Proof.
  intros CS cb db p cs Hb Hs Hcb.
  destruct (findIndex_spec db p Hb Hs) as (idx & found & l1 & Hf & Hidx & Hlt & Hge).
  assert (Hl1 : visits l1 = []).
  { change l1 with (log_of (@Done (Z * bool) (idx, found) l1)). rewrite <- Hf.
    apply reads_only_visits, findIndex_loop_reads_only. }
  unfold Prefix. rewrite Hf. cbn [bind].
  destruct (prefix_loop_spec CS cb db p Hb Hs Hcb (Z.to_nat (num db - idx)) idx cs
              ltac:(lia) ltac:(lia) Hge) as (cs' & l2 & Hl & Hv).
  rewrite Hl. exists cs', (l1 ++ l2). split; [reflexivity|].
  rewrite visits_app, Hl1, Hv, (matches_from_insertion_point db p idx Hidx Hlt).
  reflexivity.
Qed.

Lemma map_filter_zseq : forall (A : Type) (xs : list A) (d : A) (f : Z -> A)
    (g : A -> bool) i,
  (forall j, i <= j < i + Z.of_nat (length xs) -> f j = nth (Z.to_nat (j - i)) xs d) ->
  map f (filter (fun j => g (f j)) (zseq i (length xs))) = filter g xs.
Proof.
  intros A xs d f g. induction xs as [|x xs IH]; intros i Hf; [reflexivity|].
  cbn [length zseq filter].
  assert (Hx : f i = x).
  { rewrite (Hf i) by (cbn [length]; lia). now rewrite Z.sub_diag. }
  rewrite Hx.
  assert (IH' : map f (filter (fun j => g (f j)) (zseq (i + 1) (length xs)))
                = filter g xs).
  { apply IH. intros j Hj. rewrite (Hf j) by (cbn [length]; lia).
    replace (Z.to_nat (j - i)) with (S (Z.to_nat (j - (i + 1)))) by lia.
    reflexivity. }
  destruct (g x); cbn [map]; rewrite ?Hx; now rewrite IH'.
Qed.

(** Prefix on a file built from strictly ascending keys, with a callback
    that always returns [true]: the callback receives, in key order, exactly
    the builder's (key, written value bytes) pairs whose key starts with the
    prefix. *)
Theorem build_Prefix : forall CS (cb : CS -> bytes -> bytes -> bool * CS)
    s2e ze ents opts p cs,
  len (BuildWithOptions s2e ze ents opts) < two64 ->
  Forall (fun e => len (fst e) < two32) ents ->
  Forall (fun cv => len cv < two32) (built_values s2e ze ents opts) ->
  0 <= Compression opts < two32 ->
  StronglySorted (fun a b => bytes_compare a b = Lt) (map fst ents) ->
  (forall s k v, fst (cb s k v) = true) ->
  exists cs' l, Prefix cb (parse_db (BuildWithOptions s2e ze ents opts)) p cs = Done cs' l /\
    visits l = filter (fun kv => HasPrefix (fst kv) p)
                      (combine (map fst ents) (built_values s2e ze ents opts)).
Proof.
  intros CS cb s2e ze ents opts p cs HF Hk Hv Hc Hs Hcb.
  destruct (built_db_facts s2e ze ents opts HF Hk Hv Hc)
    as (Hn & _ & _ & Hlen & _ & Hb & Hkv).
  pose proof (built_sorted s2e ze ents opts HF Hk Hv Hc Hs) as Hsk.
  destruct (Prefix_all_cont CS cb _ p cs Hb Hsk Hcb) as (cs' & l & Hp & Hvis).
  exists cs', l. split; [exact Hp|]. rewrite Hvis.
  set (db := parse_db (BuildWithOptions s2e ze ents opts)) in *.
  set (xs := combine (map fst ents) (built_values s2e ze ents opts)).
  assert (Hxs : length xs = length ents).
  { unfold xs. rewrite length_combine, length_map, Hlen. apply Nat.min_id. }
  replace (Z.to_nat (num db)) with (length xs) by (rewrite Hn, Hxs; lia).
  apply (map_filter_zseq _ xs ([], []) (fun j => (key_at db j, val_at db j))
           (fun kv => HasPrefix (fst kv) p) 0).
  intros j Hj. rewrite Z.sub_0_r. rewrite Hxs in Hj.
  destruct (Hkv j ltac:(lia)) as [Ek Ev]. rewrite Ek, Ev.
  unfold xs. rewrite combine_nth.
  2: { rewrite length_map. symmetry. exact Hlen. }
  f_equal. rewrite <- (map_nth fst ents dflt_ent). apply nth_indep.
  rewrite length_map. lia.
Qed.

Lemma build_Prefix_witness :
  len (BuildWithOptions id_s2 id_zstd three_ents s2_opts) < two64 /\
  Forall (fun e => len (fst e) < two32) three_ents /\
  Forall (fun cv => len cv < two32) (built_values id_s2 id_zstd three_ents s2_opts) /\
  0 <= Compression s2_opts < two32 /\
  StronglySorted (fun a b => bytes_compare a b = Lt) (map fst three_ents) /\
  (forall s k v, fst (count_all s k v) = true) /\
  exists cs' l, Prefix count_all (parse_db (BuildWithOptions id_s2 id_zstd three_ents s2_opts))
                  (bs "a") 0%nat = Done cs' l /\
    visits l = filter (fun kv => HasPrefix (fst kv) (bs "a"))
                      (combine (map fst three_ents)
                               (built_values id_s2 id_zstd three_ents s2_opts)).
Proof.
  destruct three_ents_fit as (H1 & H2 & H3 & H4 & H5).
  assert (H6 : forall s k v, fst (count_all s k v) = true) by reflexivity.
  split; [exact H1|]. split; [exact H2|]. split; [exact H3|]. split; [exact H4|].
  split; [exact H5|]. split; [exact H6|].
  exact (build_Prefix nat count_all id_s2 id_zstd three_ents s2_opts (bs "a") 0%nat
           H1 H2 H3 H4 H5 H6).
Defined.
